(** * SocketExample: the websocket hub of websocket.go and main.go

    A shallow embedding of the client manager (the hub), of the Go channel
    operations it relies on, and of the per-client read and write loops,
    followed by the properties of the hub's membership and fan-out. *)

From stdpp Require Import gmap strings list fin_maps.

Set Warnings "-clear-no-such-hyp".

Open Scope string_scope.
Open Scope list_scope.

(** A [*Client] is an address; a [[]byte] payload and a Go [string] are both
    byte sequences. *)
Abbreviation ptr := positive (only parsing).
Abbreviation bytes := string (only parsing).

(** ** The wire envelope (websocket.go, type Message) *)

Record Message := mkMessage {
  Sender : string;
  Recipient : string;
  Content : string
}.

(** ** Go channels of [[]byte]

    [cap] is the capacity ([make(chan []byte)] has capacity 0); [waiting] is
    what sits in the channel, either the buffered values or a receiver parked
    on the empty channel; [closed] is the closed flag.  [taken] is the history
    of the values receivers have already taken out of the channel, oldest
    first. *)

Module Chan.

Inductive contents :=
| Items (buf : list bytes)
| Receiver.

Record t := mk {
  cap : nat;
  waiting : contents;
  closed : bool;
  taken : list bytes
}.

Definition buf (c : t) : list bytes :=
  match waiting c with Items b => b | Receiver => [] end.

Definition recvq (c : t) : bool :=
  match waiting c with Items _ => false | Receiver => true end.

(** [make(chan []byte, n)] *)
Definition make (n : nat) : t :=
  {| cap := n; waiting := Items []; closed := false; taken := [] |}.

(** Every value the channel has accepted so far, in send order. *)
Definition sent (c : t) : list bytes := taken c ++ buf c.

Inductive send_result :=
| SendOk (c : t)
| SendFull
| SendPanic.

(** One attempt of [c <- m] that does not park: a closed channel panics, a
    parked receiver is handed the value, otherwise the value goes into the
    buffer when there is room. *)
Definition chansend (c : t) (m : bytes) : send_result :=
  if closed c then SendPanic
  else
    match waiting c with
    | Receiver =>
        SendOk {| cap := cap c; waiting := Items []; closed := false;
                  taken := taken c ++ [m] |}
    | Items b =>
        if (List.length b <? cap c)%nat then
          SendOk {| cap := cap c; waiting := Items (b ++ [m]); closed := false;
                    taken := taken c |}
        else SendFull
    end.

(** The channel would make a sender wait. *)
Definition full (c : t) : bool :=
  negb (closed c) && negb (recvq c) && (cap c <=? List.length (buf c))%nat.

(** [close(c)]: closing a closed channel panics ([None]); a parked receiver
    is released. *)
Definition closechan (c : t) : option t :=
  if closed c then None
  else Some {| cap := cap c; waiting := Items (buf c); closed := true;
               taken := taken c |}.

Inductive recv_result :=
| RecvVal (m : bytes) (c : t)
| RecvClosed
| RecvPark (c : t).

(** [<-c] executed by a receiver while no sender is parked. *)
Definition chanrecv (c : t) : recv_result :=
  match buf c with
  | m :: b =>
      RecvVal m {| cap := cap c; waiting := Items b; closed := closed c;
                   taken := taken c ++ [m] |}
  | [] =>
      if closed c then RecvClosed
      else RecvPark {| cap := cap c; waiting := Receiver; closed := false;
                       taken := taken c |}
  end.

(** [<-c] executed while a sender is parked on [c] with value [m]: an
    unbuffered channel hands [m] over directly; a full buffer yields its head
    and takes [m] at its tail. *)
Definition recv_from_sender (c : t) (m : bytes) : t :=
  match buf c with
  | [] => {| cap := cap c; waiting := Items []; closed := closed c;
             taken := taken c ++ [m] |}
  | h :: b => {| cap := cap c; waiting := Items (b ++ [m]); closed := closed c;
                 taken := taken c ++ [h] |}
  end.

End Chan.

(** ** Clients (websocket.go, type Client)

    The [socket] field is the transport handle; it is used by the read and
    write loops only and appears below as the socket actions of their
    traces. *)

Module Client.

Record t := mk {
  id : string;
  send : Chan.t
}.

End Client.

(** ** The program state seen by the manager

    [clients] is [manager.clients]; [heap] holds the Client objects allocated
    so far; [closes] records, in order, the clients whose [send] channel the
    manager has closed. *)

Record state := mkState {
  clients : gmap positive bool;
  heap : gmap positive Client.t;
  closes : list positive
}.

(** [var manager = ClientManager{...}]: no client, nothing allocated. *)
Definition manager : state :=
  {| clients := ∅; heap := ∅; closes := [] |}.

Definition set_send (conn : ptr) (cl : Client.t) (ch : Chan.t) (s : state) : state :=
  {| clients := clients s;
     heap := <[conn := {| Client.id := Client.id cl; Client.send := ch |}]> (heap s);
     closes := closes s |}.

(** The keys of [manager.clients]. *)
Definition keys (s : state) : list positive := (map_to_list (clients s)).*1.

(** Everything accepted so far by the [send] channel of [conn]. *)
Definition sent (s : state) (conn : ptr) : list bytes :=
  match heap s !! conn with
  | Some cl => Chan.sent (Client.send cl)
  | None => []
  end.

(** Requests received by the [select] of [start] on [manager.register],
    [manager.unregister] and [manager.broadcast]. *)
Inductive request :=
| Register (conn : ptr)
| Unregister (conn : ptr)
| Broadcast (message : bytes).

(** What one pass of the manager ends in: back at the [select] ([Done]);
    parked inside [send] on [conn.send <- message] with [rest] still to visit
    ([Blocked]); or a run-time panic (nil dereference, send on or close of a
    closed channel). *)
Inductive outcome :=
| Done (s : state)
| Blocked (s : state) (conn : ptr) (rest : list positive) (message : bytes) (ignore : ptr)
| Panic (s : state).

Definition state_of (o : outcome) : state :=
  match o with
  | Done s => s
  | Blocked s _ _ _ _ => s
  | Panic s => s
  end.

Definition is_blocked (o : outcome) : bool :=
  match o with Blocked _ _ _ _ _ => true | _ => false end.

Definition is_panic (o : outcome) : bool :=
  match o with Panic _ => true | _ => false end.

Definition dq : string := String (Ascii.ascii_of_nat 34) EmptyString.

Definition connected_message : Message :=
  {| Sender := EmptyString; Recipient := EmptyString;
     Content := "/A new socket has connected." |}.

Definition disconnected_message : Message :=
  {| Sender := EmptyString; Recipient := EmptyString;
     Content := "/A socket has disconnected." |}.

Section Hub.

(** [encoding/json]'s encoder of a string value. *)
Variable json_string : string → string.

(** The order in which a [range] over [manager.clients] yields its keys: Go
    leaves it unspecified, every key comes exactly once. *)
Variable range_order : state → list positive.
Hypothesis range_order_perm : ∀ s, range_order s ≡ₚ keys s.

(** [json.Marshal] of a [Message]: the three fields in declaration order,
    each [omitempty]. *)
Definition json_field (name value : string) : list string :=
  if decide (value = EmptyString) then []
  else [dq +:+ name +:+ dq +:+ ":" +:+ json_string value].

Definition json_Marshal (m : Message) : bytes :=
  "{" +:+ String.concat ","
            (json_field "sender" (Sender m) ++
             json_field "recipient" (Recipient m) ++
             json_field "content" (Content m)) +:+ "}".

(** *** [func (manager *ClientManager) send(message []byte, ignore *Client)]

    The body of the [range] loop over the keys still to visit.  The send
    [conn.send <- message] is a plain (blocking) send: when the channel
    cannot take the value at once the manager parks on it. *)
Fixpoint send_loop (s : state) (message : bytes) (ignore : ptr)
    (todo : list positive) : outcome :=
  match todo with
  | [] => Done s
  | conn :: rest =>
      if decide (conn = ignore) then send_loop s message ignore rest
      else
        match heap s !! conn with
        | None => Panic s
        | Some cl =>
            match Chan.chansend (Client.send cl) message with
            | Chan.SendOk ch => send_loop (set_send conn cl ch s) message ignore rest
            | Chan.SendFull => Blocked s conn rest message ignore
            | Chan.SendPanic => Panic s
            end
        end
  end.

Definition send (s : state) (message : bytes) (ignore : ptr) : outcome :=
  send_loop s message ignore (range_order s).

(** The parked send of a [Blocked] manager completes when the write loop of
    [conn] receives: the value is handed over and the loop goes on. *)
Definition resume_send (s : state) (conn : ptr) (rest : list positive)
    (message : bytes) (ignore : ptr) : outcome :=
  match heap s !! conn with
  | None => Panic s
  | Some cl =>
      send_loop (set_send conn cl (Chan.recv_from_sender (Client.send cl) message) s)
                message ignore rest
  end.

(** *** The broadcast case of [start]: a [select] with a [default] branch, so
    the send is only attempted; when it cannot proceed the channel is closed
    and the client deleted from the map (deleting the current key of a
    [range] leaves the keys still to come untouched). *)
Fixpoint broadcast_loop (s : state) (message : bytes) (todo : list positive) : outcome :=
  match todo with
  | [] => Done s
  | conn :: rest =>
      match heap s !! conn with
      | None => Panic s
      | Some cl =>
          match Chan.chansend (Client.send cl) message with
          | Chan.SendOk ch => broadcast_loop (set_send conn cl ch s) message rest
          | Chan.SendFull =>
              match Chan.closechan (Client.send cl) with
              | None => Panic s
              | Some ch =>
                  broadcast_loop
                    {| clients := delete conn (clients s);
                       heap := <[conn := {| Client.id := Client.id cl; Client.send := ch |}]> (heap s);
                       closes := closes s ++ [conn] |}
                    message rest
              end
          | Chan.SendPanic => Panic s
          end
      end
  end.

(** *** One iteration of the [for { select { ... } }] of [start] *)
Definition start_step (s : state) (r : request) : outcome :=
  match r with
  | Register conn =>
      let s1 := {| clients := <[conn := true]> (clients s); heap := heap s;
                   closes := closes s |} in
      send s1 (json_Marshal connected_message) conn
  | Unregister conn =>
      match clients s !! conn with
      | Some _ =>
          match heap s !! conn with
          | None => Panic s
          | Some cl =>
              match Chan.closechan (Client.send cl) with
              | None => Panic s
              | Some ch =>
                  let s1 := {| clients := delete conn (clients s);
                               heap := <[conn := {| Client.id := Client.id cl; Client.send := ch |}]> (heap s);
                               closes := closes s ++ [conn] |} in
                  send s1 (json_Marshal disconnected_message) conn
              end
          end
      | None => Done s
      end
  | Broadcast message => broadcast_loop s message (range_order s)
  end.

(** *** [wsPage] (main.go) after a successful upgrade: a new Client with a
    fresh address and an unbuffered [send] channel is handed to
    [manager.register]. *)
Definition wsPage (s : state) (conn : ptr) (uuid : string) : outcome :=
  start_step {| clients := clients s;
                heap := <[conn := {| Client.id := uuid; Client.send := Chan.make 0 |}]> (heap s);
                closes := closes s |}
             (Register conn).

(** *** The write loop's receive, seen from the manager's side: the
    [<-c.send] of [Client.write] on the state of the channel. *)
Definition writer_recv (s : state) (conn : ptr) : state :=
  match heap s !! conn with
  | None => s
  | Some cl =>
      match Chan.chanrecv (Client.send cl) with
      | Chan.RecvVal _ ch => set_send conn cl ch s
      | Chan.RecvPark ch => set_send conn cl ch s
      | Chan.RecvClosed => s
      end
  end.

(** ** Executions

    The manager goroutine runs [start]; the other goroutines show up as
    events: a connection accepted by [wsPage], a request put on one of the
    manager's channels, the write loop of a client executing its receive.
    Requests are taken only at the [select], that is when the manager is not
    parked; a panic ends the program. *)
Inductive event :=
| Accept (conn : ptr) (uuid : string)
| Req (r : request)
| Recv (conn : ptr).

Definition step (o : outcome) (e : event) : option outcome :=
  match o, e with
  | Done s, Accept conn uuid =>
      match heap s !! conn with
      | None => Some (wsPage s conn uuid)
      | Some _ => None
      end
  | Done s, Req r => Some (start_step s r)
  | Done s, Recv conn => Some (Done (writer_recv s conn))
  | Blocked s conn rest message ignore, Recv c =>
      if decide (c = conn) then Some (resume_send s conn rest message ignore)
      else Some (Blocked (writer_recv s c) conn rest message ignore)
  | Blocked _ _ _ _ _, _ => None
  | Panic _, _ => None
  end.

Fixpoint run (o : outcome) (evs : list event) : option outcome :=
  match evs with
  | [] => Some o
  | e :: evs' =>
      match step o e with
      | Some o' => run o' evs'
      | None => None
      end
  end.

(** [start] on the requests of a list, one iteration each. *)
Definition start (s : state) (reqs : list request) : option outcome :=
  run (Done s) (Req <$> reqs).

(** ** The per-client goroutines

    A loop is described by the actions it performs, given what its blocking
    calls return; the boolean tells whether the goroutine has returned (with
    its deferred calls run) or is still waiting in its loop. *)
Inductive msg_type := TextMessage | CloseMessage.

Inductive action :=
| ToManager (r : request)
| WriteMessage (t : msg_type) (data : bytes)
| SocketClose.

(** What [c.socket.ReadMessage()] returns: a message or an error. *)
Inductive read_result := ReadOk (message : bytes) | ReadErr.

(** [func (c *Client) read()] *)
Fixpoint read (c : ptr) (cid : string) (script : list read_result) : list action * bool :=
  match script with
  | [] => ([], false)
  | ReadErr :: _ =>
      ([ToManager (Unregister c); SocketClose] ++
       [ToManager (Unregister c); SocketClose], true)
  | ReadOk message :: script' =>
      let '(tr, fin) := read c cid script' in
      (ToManager (Broadcast (json_Marshal
         {| Sender := cid; Recipient := EmptyString; Content := message |})) :: tr, fin)
  end.

(** What [message, ok := <-c.send] yields, together with whether the
    [WriteMessage] call that follows returns an error. *)
Inductive received := Value (message : bytes) (werr : bool) | NotOk (werr : bool).

(** [func (c *Client) write()]: the result of [WriteMessage] is dropped. *)
Fixpoint write (script : list received) : list action * bool :=
  match script with
  | [] => ([], false)
  | NotOk _ :: _ => ([WriteMessage CloseMessage EmptyString; SocketClose], true)
  | Value message _ :: script' =>
      let '(tr, fin) := write script' in
      (WriteMessage TextMessage message :: tr, fin)
  end.

Definition requests_of (tr : list action) : list request :=
  omap (λ a, match a with ToManager r => Some r | _ => None end) tr.

(** ** State predicates *)

(** The client at [conn] is allocated and its [send] channel is open. *)
Definition open_at (s : state) (conn : ptr) : Prop :=
  ∃ cl, heap s !! conn = Some cl ∧ Chan.closed (Client.send cl) = false.

(** The client at [conn] is allocated and its [send] channel is closed. *)
Definition closed_at (s : state) (conn : ptr) : Prop :=
  ∃ cl, heap s !! conn = Some cl ∧ Chan.closed (Client.send cl) = true.

(** Every client of the map is allocated with an open channel. *)
Definition clients_open (s : state) : Prop :=
  ∀ conn, conn ∈ dom (clients s) → open_at s conn.

(** The [send] channel of [conn] would make a sender wait. *)
Definition chan_full (s : state) (conn : ptr) : bool :=
  match heap s !! conn with
  | Some cl => Chan.full (Client.send cl)
  | None => false
  end.

(** What a parked manager still owes to [c]. *)
Definition owed (o : outcome) (c : ptr) : list bytes :=
  match o with
  | Blocked _ conn rest message ignore =>
      if decide (c ∈ conn :: rest ∧ c ≠ ignore) then [message] else []
  | _ => []
  end.

Definition pending_ok (o : outcome) : Prop :=
  match o with
  | Blocked _ conn rest _ ignore => NoDup (conn :: rest) ∧ conn ≠ ignore
  | _ => True
  end.

(** A parked manager is inside a fan-out over [todo] that ignores [ignore]. *)
Definition pending_in (o : outcome) (todo : list positive) (ignore : ptr) : Prop :=
  match o with
  | Blocked _ conn rest _ i => i = ignore ∧ ∀ c, c ∈ conn :: rest → c ∈ todo
  | _ => True
  end.

(** The state is consistent: the clients of the map have open channels, and
    the channels the manager has closed are the closed ones, each closed
    once. *)
Definition wf (s : state) : Prop :=
  clients_open s ∧ (∀ c, c ∈ closes s ↔ closed_at s c) ∧ NoDup (closes s).

Definition inv (o : outcome) : Prop :=
  is_panic o = false ∧ wf (state_of o) ∧
  match o with
  | Blocked s conn rest _ ignore =>
      conn ∈ dom (clients s) ∧ ∀ c, c ∈ rest → c ≠ ignore → c ∈ dom (clients s)
  | _ => True
  end.

(** The peers admitted and not removed afterwards, as the admit and remove
    events of an execution tell. *)
Definition membership_step (A : gset positive) (e : event) : gset positive :=
  match e with
  | Accept conn _ => A ∪ {[conn]}
  | Req (Register conn) => A ∪ {[conn]}
  | Req (Unregister conn) => A ∖ {[conn]}
  | _ => A
  end.

Definition registered_not_removed (init : gset positive) (evs : list event) : gset positive :=
  foldl membership_step init evs.

Definition is_broadcast (e : event) : Prop :=
  match e with Req (Broadcast _) => True | _ => False end.

(** The event is not a broadcast that meets a full channel. *)
Definition quiet (o : outcome) (e : event) : Prop :=
  is_broadcast e →
  ∀ c, c ∈ dom (clients (state_of o)) → chan_full (state_of o) c = false.

(** No broadcast of the execution meets a full channel. *)
Fixpoint no_eviction (o : outcome) (evs : list event) : Prop :=
  match evs with
  | [] => True
  | e :: evs' =>
      quiet o e ∧
      match step o e with
      | Some o' => no_eviction o' evs'
      | None => True
      end
  end.

(** The event puts [c] into the map. *)
Definition registers (c : ptr) (e : event) : Prop :=
  match e with
  | Accept conn _ => conn = c
  | Req (Register conn) => conn = c
  | _ => False
  end.

Definition is_register (e : event) : Prop :=
  match e with Req (Register _) => True | _ => False end.

Definition is_recv (e : event) : Prop :=
  match e with Recv _ => True | _ => False end.

(** ** Channel histories

    One operation on a channel: a send that goes through, a close, a receive
    (of a value, or parking), or the receive that serves a parked sender. *)
Inductive chan_step : Chan.t → Chan.t → Prop :=
| chan_step_send ch m ch' :
    Chan.chansend ch m = Chan.SendOk ch' → chan_step ch ch'
| chan_step_close ch ch' :
    Chan.closechan ch = Some ch' → chan_step ch ch'
| chan_step_recv ch m ch' :
    Chan.chanrecv ch = Chan.RecvVal m ch' → chan_step ch ch'
| chan_step_park ch ch' :
    Chan.chanrecv ch = Chan.RecvPark ch' → chan_step ch ch'
| chan_step_handoff ch m :
    chan_step ch (Chan.recv_from_sender ch m).

(** The heap of [s'] comes from the heap of [s]: the clients of [s] are still
    there, with their id, their channel further along its history; the other
    clients of [s'] were made by [wsPage], with a channel [make(chan []byte)]
    at the start of its history. *)
Definition heap_evolves (s s' : state) : Prop :=
  (∀ c cl, heap s !! c = Some cl → is_Some (heap s' !! c)) ∧
  (∀ c cl', heap s' !! c = Some cl' →
     match heap s !! c with
     | Some cl =>
         Client.id cl' = Client.id cl ∧ rtc chan_step (Client.send cl) (Client.send cl')
     | None => rtc chan_step (Chan.make 0) (Client.send cl')
     end).

(** Every channel is unbuffered and holds nothing. *)
Definition unbuffered (s : state) : Prop :=
  ∀ c cl, heap s !! c = Some cl →
    Chan.cap (Client.send cl) = 0 ∧ Chan.buf (Client.send cl) = [].

(** The write loop of [conn] is parked on its receive. *)
Definition writer_parked (s : state) (conn : ptr) : bool :=
  match heap s !! conn with
  | Some cl => Chan.recvq (Client.send cl)
  | None => false
  end.

(** What the [select] of the broadcast case does to one client: the send, or
    else the close. *)
Definition after_broadcast (message : bytes) (cl : Client.t) : Client.t :=
  match Chan.chansend (Client.send cl) message with
  | Chan.SendOk ch => {| Client.id := Client.id cl; Client.send := ch |}
  | Chan.SendFull =>
      match Chan.closechan (Client.send cl) with
      | Some ch => {| Client.id := Client.id cl; Client.send := ch |}
      | None => cl
      end
  | Chan.SendPanic => cl
  end.

(** The closed flag of the channel of [c], if [c] is allocated. *)
Definition closed_flag (s : state) (c : ptr) : option bool :=
  Chan.closed ∘ Client.send <$> heap s !! c.

(** The envelope the read loop of the client with id [cid] builds for a
    payload. *)
Definition user_message (cid : string) (message : bytes) : Message :=
  {| Sender := cid; Recipient := EmptyString; Content := message |}.

(** The write loop of [c] comes to its receive before each of the broadcasts
    of [msgs]. *)
Definition keeps_up (c : ptr) (msgs : list bytes) : list event :=
  msgs ≫= λ m, [Recv c; Req (Broadcast m)].




(** The messages of the broadcast requests of an execution, in order. *)
Definition broadcast_of (e : event) : list bytes :=
  match e with Req (Broadcast m) => [m] | _ => [] end.

Definition broadcasts (evs : list event) : list bytes :=
  evs ≫= broadcast_of.

(** Whenever a broadcast of the execution is served, the write loop of [c]
    is parked on its receive. *)
Fixpoint parked_at_broadcasts (c : ptr) (o : outcome) (evs : list event) : Prop :=
  match evs with
  | [] => True
  | e :: evs' =>
      (is_broadcast e → writer_parked (state_of o) c = true) ∧
      match step o e with
      | Some o' => parked_at_broadcasts c o' evs'
      | None => True
      end
  end.

(** ** Concrete instances used to run the model *)

(** A string encoder for payloads without characters that need escaping. *)
Definition quote_string (v : string) : string := dq +:+ v +:+ dq.

(** One admissible iteration order: the keys as the map lists them. *)
Definition key_order (s : state) : list positive := keys s.

(** Boolean form of [clients_open], to evaluate on a given state. *)
Definition open_atb (s : state) (conn : ptr) : bool :=
  match heap s !! conn with
  | Some cl => negb (Chan.closed (Client.send cl))
  | None => false
  end.

Definition clients_openb (s : state) : bool := forallb (open_atb s) (keys s).

(** An unbuffered channel on which the write loop is parked. *)
Definition parked : Chan.t :=
  {| Chan.cap := 0; Chan.waiting := Chan.Receiver; Chan.closed := false; Chan.taken := [] |}.

(** One client admitted, its write loop not yet at its receive. *)
Definition st_one : state :=
  {| clients := <[1%positive := true]> ∅;
     heap := <[1%positive := {| Client.id := "A"; Client.send := Chan.make 0 |}]> ∅;
     closes := [] |}.

(** The client of [st_one] after its removal. *)
Definition st_one_gone : state :=
  {| clients := ∅;
     heap := <[1%positive := {| Client.id := "A";
                                Client.send := {| Chan.cap := 0; Chan.waiting := Chan.Items [];
                                                  Chan.closed := true; Chan.taken := [] |} |}]> ∅;
     closes := [1%positive] |}.

(** Client 1 admitted with its write loop parked, client 2 just allocated by
    [wsPage]. *)
Definition st_newcomer : state :=
  {| clients := <[1%positive := true]> ∅;
     heap := <[1%positive := {| Client.id := "A"; Client.send := parked |}]>
            (<[2%positive := {| Client.id := "B"; Client.send := Chan.make 0 |}]> ∅);
     closes := [] |}.

(** Client 1 admitted with its write loop parked. *)
Definition st_parked : state :=
  {| clients := <[1%positive := true]> ∅;
     heap := <[1%positive := {| Client.id := "A"; Client.send := parked |}]> ∅;
     closes := [] |}.

(** The connection announcement as [quote_string] encodes it. *)
Definition connected_bytes : string :=
  "{" +:+ dq +:+ "content" +:+ dq +:+ ":" +:+
  quote_string "/A new socket has connected." +:+ "}".

(** Clients 1 and 2 admitted in turn: client 1 has taken the announcement of
    client 2 and is writing it; the write loop of client 2 is parked. *)
Definition st_pair : state :=
  {| clients := <[1%positive := true]> (<[2%positive := true]> ∅);
     heap := <[1%positive :=
                {| Client.id := "A";
                   Client.send :=
                     {| Chan.cap := 0; Chan.waiting := Chan.Items []; Chan.closed := false;
                        Chan.taken := [connected_bytes] |} |}]>
            (<[2%positive := {| Client.id := "B"; Client.send := parked |}]> ∅);
     closes := [] |}.

(** The removed client of [st_one_gone] put back into the map. *)
Definition st_one_back : state :=
  {| clients := <[1%positive := true]> ∅;
     heap := heap st_one_gone;
     closes := [1%positive] |}.

(** Three clients: the write loops of 2 and 3 are parked on their channels,
    the channel of 1 has neither room nor receiver. *)
Definition st_stress : state :=
  {| clients := <[1%positive := true]> (<[2%positive := true]> (<[3%positive := true]> ∅));
     heap := <[1%positive := {| Client.id := "A"; Client.send := Chan.make 0 |}]>
            (<[2%positive := {| Client.id := "B"; Client.send := parked |}]>
            (<[3%positive := {| Client.id := "C"; Client.send := parked |}]> ∅));
     closes := [] |}.

(** * Facts about the model *)

Lemma key_order_perm s : key_order s ≡ₚ keys s.
Proof. reflexivity. Qed.

(** ** Channel facts *)

Section ChanFacts.

Import Chan.

Lemma chansend_ok c m c' :
  chansend c m = SendOk c' →
  closed c = false ∧ closed c' = false ∧ full c = false ∧ Chan.sent c' = Chan.sent c ++ [m].
Proof.
  unfold chansend, full, Chan.sent, buf, recvq.
  destruct (closed c) eqn:Hc; [done|].
  destruct (waiting c) as [b|] eqn:Hw.
  - destruct (List.length b <? cap c)%nat eqn:Hl; [|done].
    intros [= <-]; simpl. split_and!; try done.
    + apply Nat.ltb_lt in Hl. apply Nat.leb_gt. lia.
    + by rewrite app_assoc.
  - intros [= <-]; simpl. split_and!; try done. by rewrite !app_nil_r.
Qed.

Lemma chansend_full c m : chansend c m = SendFull ↔ full c = true.
Proof.
  unfold chansend, full, buf, recvq.
  destruct (closed c); [done|].
  destruct (waiting c) as [b|]; simpl; [|done].
  destruct (List.length b <? cap c)%nat eqn:Hl.
  - apply Nat.ltb_lt in Hl. split; [done|]. intros H%Nat.leb_le. lia.
  - apply Nat.ltb_ge in Hl. split; [|done]. intros _. by apply Nat.leb_le.
Qed.

Lemma chansend_panic c m : chansend c m = SendPanic ↔ closed c = true.
Proof.
  unfold chansend. destruct (closed c); [done|].
  destruct (waiting c) as [b|]; [|done].
  by destruct (List.length b <? cap c)%nat.
Qed.

Lemma closechan_some c c' :
  closechan c = Some c' →
  closed c = false ∧ closed c' = true ∧ Chan.sent c' = Chan.sent c.
Proof.
  unfold closechan. destruct (closed c) eqn:Hc; [done|]. by intros [= <-].
Qed.

Lemma closechan_open c : closed c = false → is_Some (closechan c).
Proof. unfold closechan. intros ->. eauto. Qed.

Lemma chanrecv_val c m c' :
  chanrecv c = RecvVal m c' → closed c' = closed c ∧ Chan.sent c' = Chan.sent c.
Proof.
  unfold chanrecv, Chan.sent. destruct (buf c) as [|h b] eqn:Hb.
  - by destruct (closed c).
  - intros [= <- <-]; simpl. split; [done|]. by rewrite <-app_assoc.
Qed.

Lemma chanrecv_park c c' :
  chanrecv c = RecvPark c' → closed c' = closed c ∧ Chan.sent c' = Chan.sent c.
Proof.
  unfold chanrecv, Chan.sent. destruct (buf c) as [|h b] eqn:Hb; [|done].
  destruct (closed c) eqn:Hc; [done|]. by intros [= <-].
Qed.

Lemma chanrecv_closed c : chanrecv c = RecvClosed → closed c = true.
Proof.
  unfold chanrecv. destruct (buf c); [|done]. by destruct (closed c).
Qed.

Lemma recv_from_sender_spec c m :
  closed (recv_from_sender c m) = closed c ∧
  Chan.sent (recv_from_sender c m) = Chan.sent c ++ [m].
Proof.
  unfold recv_from_sender, Chan.sent. destruct (buf c) as [|h b]; simpl.
  - split; [done|]. by rewrite !app_nil_r.
  - split; [done|]. by rewrite <-!app_assoc.
Qed.

End ChanFacts.

(** ** Facts about the manager *)

Lemma sent_set_send conn cl ch s c :
  sent (set_send conn cl ch s) c = if decide (c = conn) then Chan.sent ch else sent s c.
Proof.
  unfold sent, set_send; simpl. case_decide as Hc.
  - subst. by rewrite lookup_insert_eq.
  - by rewrite lookup_insert_ne.
Qed.

Lemma elem_of_keys s c : c ∈ keys s ↔ c ∈ dom (clients s).
Proof.
  unfold keys. rewrite elem_of_dom, list_elem_of_fmap. split.
  - intros [[k v] [-> Hkv]]. apply elem_of_map_to_list in Hkv. eauto.
  - intros [v Hv]. exists (c, v). split; [done|]. by apply elem_of_map_to_list.
Qed.

Lemma NoDup_keys s : NoDup (keys s).
Proof. apply NoDup_fst_map_to_list. Qed.

Lemma elem_of_range_order s c : c ∈ range_order s ↔ c ∈ dom (clients s).
Proof. by rewrite range_order_perm, elem_of_keys. Qed.

Lemma NoDup_range_order s : NoDup (range_order s).
Proof. rewrite range_order_perm. apply NoDup_keys. Qed.

(** *** The fan-out of [send] *)

Lemma send_loop_clients s message ignore todo :
  clients (state_of (send_loop s message ignore todo)) = clients s ∧
  closes (state_of (send_loop s message ignore todo)) = closes s.
Proof.
  revert s. induction todo as [|conn rest IH]; intros s; simpl; [done|].
  case_decide; [apply IH|].
  destruct (heap s !! conn) as [cl|]; [|done].
  destruct (Chan.chansend _ _); simpl; try done.
  destruct (IH (set_send conn cl c s)) as [-> ->]. done.
Qed.

(** Whatever has been sent plus whatever a parked manager still owes is what
    the whole loop has to deliver. *)
Lemma send_loop_account todo s message ignore :
  NoDup todo →
  is_panic (send_loop s message ignore todo) = false →
  pending_ok (send_loop s message ignore todo) ∧
  ∀ c, sent (state_of (send_loop s message ignore todo)) c
         ++ owed (send_loop s message ignore todo) c
       = sent s c ++ (if decide (c ∈ todo ∧ c ≠ ignore) then [message] else []).
Proof.
  revert s. induction todo as [|conn rest IH]; intros s Hnd Hp;
    cbn [send_loop state_of owed is_panic pending_ok] in *.
  { split; [done|]. intros c. rewrite decide_False; [done|]. set_solver. }
  apply NoDup_cons in Hnd as [Hconn Hnd].
  case_decide as Hi.
  { destruct (IH s Hnd Hp) as [Hok Hs]. split; [done|]. intros c. rewrite Hs.
    f_equal. repeat case_decide; set_solver. }
  destruct (heap s !! conn) as [cl|] eqn:Hcl; [|done].
  destruct (Chan.chansend (Client.send cl) message) as [ch| |] eqn:Hsend; [| |done].
  - destruct (IH _ Hnd Hp) as [Hok Hs]. split; [done|]. intros c. rewrite Hs.
    rewrite sent_set_send. apply chansend_ok in Hsend as (_ & _ & _ & Hsent).
    case_decide as Hc.
    + subst c. rewrite Hsent. unfold sent. rewrite Hcl.
      rewrite decide_False by set_solver. rewrite decide_True by set_solver.
      by rewrite app_nil_r.
    + f_equal. repeat case_decide; set_solver.
  - cbn [state_of owed pending_ok]. split; [by split; [apply NoDup_cons|]|]. done.
Qed.

Lemma writer_recv_clients s c :
  clients (writer_recv s c) = clients s ∧ closes (writer_recv s c) = closes s.
Proof.
  unfold writer_recv. destruct (heap s !! c) as [cl|]; [|done].
  by destruct (Chan.chanrecv _).
Qed.

Lemma writer_recv_sent s c c' : sent (writer_recv s c) c' = sent s c'.
Proof.
  unfold writer_recv. destruct (heap s !! c) as [cl|] eqn:Hcl; [|done].
  destruct (Chan.chanrecv _) as [m ch| |ch] eqn:Hr; [| done |].
  - rewrite sent_set_send. case_decide; [subst|done].
    unfold sent. rewrite Hcl. by apply chanrecv_val in Hr as [_ ->].
  - rewrite sent_set_send. case_decide; [subst|done].
    unfold sent. rewrite Hcl. by apply chanrecv_park in Hr as [_ ->].
Qed.

Lemma resume_send_account s conn rest message ignore :
  NoDup (conn :: rest) → conn ≠ ignore →
  is_panic (resume_send s conn rest message ignore) = false →
  pending_ok (resume_send s conn rest message ignore) ∧
  ∀ c, sent (state_of (resume_send s conn rest message ignore)) c
         ++ owed (resume_send s conn rest message ignore) c
       = sent s c ++ (if decide (c ∈ conn :: rest ∧ c ≠ ignore) then [message] else []).
Proof.
  intros [Hconn Hnd]%NoDup_cons Hi. unfold resume_send.
  destruct (heap s !! conn) as [cl|] eqn:Hcl; [|done]. intros Hp.
  destruct (send_loop_account rest _ message ignore Hnd Hp) as [Hok Hs].
  split; [done|]. intros c. rewrite Hs, sent_set_send.
  destruct (recv_from_sender_spec (Client.send cl) message) as [_ Hsent].
  case_decide as Hc.
  - subst c. rewrite Hsent. unfold sent. rewrite Hcl.
    rewrite decide_False by set_solver. rewrite decide_True by set_solver.
    by rewrite app_nil_r.
  - f_equal. repeat case_decide; set_solver.
Qed.

Lemma run_not_panic evs o o' :
  run o evs = Some o' → is_panic o' = false → is_panic o = false.
Proof.
  destruct o; try done. destruct evs; simpl; [|done]. by intros [= <-].
Qed.

(** While only write loops move, what has been sent plus what the parked
    manager still owes does not change. *)
Lemma run_recv_account evs o o' :
  Forall is_recv evs → pending_ok o →
  run o evs = Some o' → is_panic o' = false →
  pending_ok o' ∧
  ∀ c, sent (state_of o') c ++ owed o' c = sent (state_of o) c ++ owed o c.
Proof.
  revert o. induction evs as [|e evs IH]; intros o Hev Hok Hrun Hp'.
  { simpl in Hrun. by injection Hrun as ->. }
  apply Forall_cons in Hev as [He Hev]. destruct e as [| |c0]; try done.
  cbn [run] in Hrun. destruct o as [s|s conn rest message ignore|s]; cbn [step] in Hrun.
  - destruct (IH (Done (writer_recv s c0)) Hev I Hrun Hp') as [Hok' Hs].
    split; [done|]. intros c. rewrite Hs. cbn [state_of owed].
    by rewrite writer_recv_sent.
  - case_decide as Hc0.
    + subst c0. destruct Hok as [Hnd Hi].
      pose proof (run_not_panic _ _ _ Hrun Hp') as Hp.
      destruct (resume_send_account s conn rest message ignore Hnd Hi Hp) as [Hok1 Hs1].
      destruct (IH _ Hev Hok1 Hrun Hp') as [Hok' Hs].
      split; [done|]. intros c. by rewrite Hs, Hs1.
    + destruct (IH (Blocked (writer_recv s c0) conn rest message ignore) Hev Hok Hrun Hp')
        as [Hok' Hs].
      split; [done|]. intros c. rewrite Hs. cbn [state_of owed].
      by rewrite writer_recv_sent.
  - done.
Qed.

Lemma send_loop_pending_in todo s message ignore :
  pending_in (send_loop s message ignore todo) todo ignore.
Proof.
  revert s. induction todo as [|conn rest IH]; intros s; cbn [send_loop]; [done|].
  assert (∀ o, pending_in o rest ignore → pending_in o (conn :: rest) ignore) as Hw.
  { intros [| |]; try done. intros [? Hin]. split; [done|]. set_solver. }
  case_decide; [by apply Hw|].
  destruct (heap s !! conn) as [cl|]; [|done].
  destruct (Chan.chansend _ _); [by apply Hw| |done]. by split.
Qed.

Lemma run_recv_pending_in evs o o' todo ignore :
  Forall is_recv evs → pending_in o todo ignore →
  run o evs = Some o' → pending_in o' todo ignore.
Proof.
  revert o. induction evs as [|e evs IH]; intros o Hev Hin Hrun.
  { simpl in Hrun. by injection Hrun as ->. }
  apply Forall_cons in Hev as [He Hev]. destruct e as [| |c0]; try done.
  cbn [run] in Hrun. destruct o as [s|s conn rest message i|s]; cbn [step] in Hrun.
  - by apply (IH (Done (writer_recv s c0))).
  - case_decide as Hc0.
    + apply (IH (resume_send s conn rest message i) Hev); [|done].
      destruct Hin as [-> Hin]. unfold resume_send.
      destruct (heap s !! conn) as [cl|]; [|done].
      pose proof (send_loop_pending_in rest
        (set_send conn cl (Chan.recv_from_sender (Client.send cl) message) s)
        message ignore) as Hpi.
      destruct (send_loop _ _ _ rest); try done.
      destruct Hpi as [-> Hpi]. split; [done|]. intros c Hc. apply Hin. set_solver.
    + by apply (IH (Blocked (writer_recv s c0) conn rest message i)).
  - done.
Qed.

Lemma owed_nil o todo ignore c :
  pending_in o todo ignore → ¬ (c ∈ todo ∧ c ≠ ignore) → owed o c = [].
Proof.
  destruct o as [|s conn rest m i|]; try done. intros [-> Hin] Hc. cbn [owed].
  rewrite decide_False; [done|]. intros [Hc1 Hc2]. apply Hc. split; [|done]. by apply Hin.
Qed.

(** The fan-out of [send] from its start, at any point reached while only
    write loops move. *)
Lemma send_account s message ignore evs o :
  Forall is_recv evs →
  run (send s message ignore) evs = Some o →
  is_panic o = false →
  ∀ c, sent (state_of o) c ++ owed o c
       = sent s c ++ (if decide (c ∈ dom (clients s) ∧ c ≠ ignore) then [message] else []).
Proof.
  intros Hev Hrun Hp c. unfold send in *.
  pose proof (run_not_panic _ _ _ Hrun Hp) as Hp0.
  destruct (send_loop_account _ s message ignore (NoDup_range_order s) Hp0) as [Hok Hs].
  destruct (run_recv_account _ _ _ Hev Hok Hrun Hp) as [_ Hs']. rewrite Hs', Hs.
  f_equal. repeat case_decide; try done; exfalso; rewrite elem_of_range_order in *; tauto.
Qed.

Lemma run_recv_clients evs o o' :
  Forall is_recv evs →
  run o evs = Some o' →
  clients (state_of o') = clients (state_of o) ∧
  closes (state_of o') = closes (state_of o).
Proof.
  revert o. induction evs as [|e evs IH]; intros o Hev Hrun.
  { simpl in Hrun. by injection Hrun as ->. }
  apply Forall_cons in Hev as [He Hev]. destruct e as [| |c0]; try done.
  cbn [run] in Hrun. destruct o as [s|s conn rest message ignore|s]; cbn [step] in Hrun.
  - destruct (IH _ Hev Hrun) as [-> ->]. cbn [state_of]. apply writer_recv_clients.
  - case_decide as Hc0.
    + destruct (IH _ Hev Hrun) as [-> ->]. cbn [state_of]. unfold resume_send.
      destruct (heap s !! conn) as [cl|]; [|done].
      destruct (send_loop_clients
        (set_send conn cl (Chan.recv_from_sender (Client.send cl) message) s)
        message ignore rest) as [-> ->]. done.
    + destruct (IH _ Hev Hrun) as [-> ->]. cbn [state_of]. apply writer_recv_clients.
  - done.
Qed.

Lemma chan_full_set_send conn cl ch s c :
  chan_full (set_send conn cl ch s) c
  = if decide (c = conn) then Chan.full ch else chan_full s c.
Proof.
  unfold chan_full, set_send; simpl. case_decide as Hc.
  - subst. by rewrite lookup_insert_eq.
  - by rewrite lookup_insert_ne.
Qed.

Lemma open_at_set_send conn cl ch s c :
  Chan.closed ch = false → open_at s c → open_at (set_send conn cl ch s) c.
Proof.
  intros Hch (cl' & Hcl' & Hopen). unfold open_at, set_send; simpl.
  destruct (decide (c = conn)) as [->|Hc].
  - rewrite lookup_insert_eq. eauto.
  - rewrite lookup_insert_ne by done. eauto.
Qed.

(** With the targets allocated and open, [send] does not panic, and it parks
    exactly when some target's channel is full. *)
Lemma send_loop_blocked_iff todo s message ignore :
  NoDup todo →
  (∀ c, c ∈ todo → c ≠ ignore → open_at s c) →
  is_panic (send_loop s message ignore todo) = false ∧
  (is_blocked (send_loop s message ignore todo) = true ↔
   ∃ c, c ∈ todo ∧ c ≠ ignore ∧ chan_full s c = true).
Proof.
  revert s. induction todo as [|conn rest IH]; intros s Hnd Hopen; cbn [send_loop].
  { split; [done|]. split; [done|]. intros (c & Hc & _). set_solver. }
  apply NoDup_cons in Hnd as [Hconn Hnd].
  case_decide as Hi.
  { destruct (IH s Hnd) as [Hp Hb]; [intros c ??; apply Hopen; set_solver|].
    split; [done|]. rewrite Hb. split; intros (c & ? & ? & ?); exists c; set_solver. }
  destruct (Hopen conn) as (cl & Hcl & Hop); [set_solver|done|]. rewrite Hcl.
  destruct (Chan.chansend (Client.send cl) message) as [ch| |] eqn:Hsend.
  - apply chansend_ok in Hsend as (_ & Hch & Hfull & _).
    destruct (IH (set_send conn cl ch s) Hnd) as [Hp Hb].
    { intros c ??. apply open_at_set_send; [done|]. apply Hopen; set_solver. }
    split; [done|]. rewrite Hb. split; intros (c & Hc & Hci & Hf).
    + exists c. rewrite chan_full_set_send in Hf. case_decide; [set_solver|].
      set_solver.
    + apply elem_of_cons in Hc as [->|Hc].
      { unfold chan_full in Hf. rewrite Hcl in Hf. congruence. }
      exists c. rewrite chan_full_set_send. rewrite decide_False by set_solver. done.
  - split; [done|]. split; [|done]. intros _. exists conn.
    split_and!; [set_solver|done|]. unfold chan_full. rewrite Hcl.
    by apply chansend_full in Hsend.
  - apply chansend_panic in Hsend. congruence.
Qed.

(** With the targets allocated and open, a fan-out gets through as soon as
    the write loops it waits for come to their receive. *)
Lemma send_loop_completes todo s message ignore :
  (∀ c, c ∈ todo → c ≠ ignore → open_at s c) →
  ∃ evs s', Forall is_recv evs ∧
    run (send_loop s message ignore todo) evs = Some (Done s').
Proof.
  revert s. induction todo as [|conn rest IH]; intros s Hopen; cbn [send_loop].
  { exists [], s. done. }
  case_decide as Hi.
  { apply IH. intros c ??. apply Hopen; set_solver. }
  destruct (Hopen conn) as (cl & Hcl & Hop); [set_solver|done|]. rewrite Hcl.
  destruct (Chan.chansend (Client.send cl) message) as [ch| |] eqn:Hsend.
  - apply chansend_ok in Hsend as (_ & Hch & _ & _). apply IH.
    intros c ??. apply open_at_set_send; [done|]. apply Hopen; set_solver.
  - destruct (IH (set_send conn cl
        (Chan.recv_from_sender (Client.send cl) message) s)) as (evs & s' & Hev & Hrun).
    { intros c ??. apply open_at_set_send; [|apply Hopen; set_solver].
      by destruct (recv_from_sender_spec (Client.send cl) message) as [-> _]. }
    exists (Recv conn :: evs), s'. split; [by constructor|].
    cbn [run step]. rewrite decide_True by done. unfold resume_send. by rewrite Hcl.
  - apply chansend_panic in Hsend. congruence.
Qed.

(** *** The broadcast pass *)

Lemma broadcast_loop_not_blocked todo s message :
  is_blocked (broadcast_loop s message todo) = false.
Proof.
  revert s. induction todo as [|conn rest IH]; intros s; cbn [broadcast_loop]; [done|].
  destruct (heap s !! conn) as [cl|]; [|done].
  destruct (Chan.chansend _ _); [apply IH| |done].
  destruct (Chan.closechan _); [apply IH|done].
Qed.

(** What a pass over [todo] does to each client: a full channel is closed and
    its client deleted; any other visited channel gets the message; clients
    not visited are left alone. *)
Lemma broadcast_loop_spec todo s message :
  NoDup todo →
  (∀ c, c ∈ todo → open_at s c) →
  ∃ s', broadcast_loop s message todo = Done s' ∧
    (∀ c, c ∈ todo → chan_full s c = true →
       clients s' !! c = None ∧ closed_at s' c ∧ c ∈ closes s' ∧ sent s' c = sent s c) ∧
    (∀ c, c ∈ todo → chan_full s c = false →
       clients s' !! c = clients s !! c ∧ open_at s' c ∧ sent s' c = sent s c ++ [message]) ∧
    (∀ c, c ∉ todo → clients s' !! c = clients s !! c ∧ heap s' !! c = heap s !! c) ∧
    (∀ c, c ∈ closes s → c ∈ closes s').
Proof.
  revert s. induction todo as [|conn rest IH]; intros s Hnd Hopen; cbn [broadcast_loop].
  { exists s. split_and!; try done; intros c Hc; set_solver. }
  apply NoDup_cons in Hnd as [Hconn Hnd].
  destruct (Hopen conn) as (cl & Hcl & Hop); [set_solver|]. rewrite Hcl.
  destruct (Chan.chansend (Client.send cl) message) as [ch| |] eqn:Hsend.
  - apply chansend_ok in Hsend as (_ & Hch & Hfull & Hsent).
    destruct (IH (set_send conn cl ch s) Hnd) as (s' & -> & Hf & Hn & Ho & Hcs).
    { intros c ?. apply open_at_set_send; [done|]. apply Hopen; set_solver. }
    exists s'. split; [done|].
    assert (∀ c, c ≠ conn → chan_full (set_send conn cl ch s) c = chan_full s c) as Hfs.
    { intros c ?. rewrite chan_full_set_send. by rewrite decide_False. }
    assert (∀ c, c ≠ conn → sent (set_send conn cl ch s) c = sent s c) as Hss.
    { intros c ?. rewrite sent_set_send. by rewrite decide_False. }
    split_and!.
    + intros c [->|Hc]%elem_of_cons Hfc.
      { unfold chan_full in Hfc. rewrite Hcl in Hfc. congruence. }
      assert (c ≠ conn) by set_solver.
      rewrite <-Hfs in Hfc by done. rewrite <-Hss by done. by apply Hf.
    + intros c [->|Hc]%elem_of_cons Hfc.
      { destruct (Ho conn Hconn) as [-> Hh]. split; [done|]. split.
        - unfold open_at. rewrite Hh. simpl. rewrite lookup_insert_eq. eauto.
        - unfold sent at 1. rewrite Hh. simpl. rewrite lookup_insert_eq. simpl.
          unfold sent. by rewrite Hcl. }
      assert (c ≠ conn) by set_solver.
      rewrite <-Hfs in Hfc by done. rewrite <-Hss by done. by apply Hn.
    + intros c Hc. apply not_elem_of_cons in Hc as [Hc1 Hc2].
      destruct (Ho c Hc2) as [-> ->]. simpl. by rewrite lookup_insert_ne.
    + done.
  - apply chansend_full in Hsend.
    destruct (closechan_open _ Hop) as [ch Hclose]. rewrite Hclose.
    apply closechan_some in Hclose as (_ & Hch & Hsent).
    set (s2 := {| clients := delete conn (clients s);
                  heap := <[conn := {| Client.id := Client.id cl; Client.send := ch |}]> (heap s);
                  closes := closes s ++ [conn] |}).
    destruct (IH s2 Hnd) as (s' & -> & Hf & Hn & Ho & Hcs).
    { intros c Hc. destruct (Hopen c) as (cl' & Hcl' & Hop'); [set_solver|].
      exists cl'. subst s2; simpl. rewrite lookup_insert_ne by set_solver. done. }
    exists s'. split; [done|].
    assert (∀ c, c ≠ conn → chan_full s2 c = chan_full s c) as Hfs.
    { intros c ?. unfold chan_full, s2; simpl. by rewrite lookup_insert_ne. }
    assert (∀ c, c ≠ conn → sent s2 c = sent s c) as Hss.
    { intros c ?. unfold sent, s2; simpl. by rewrite lookup_insert_ne. }
    split_and!.
    + intros c [->|Hc]%elem_of_cons Hfc.
      { destruct (Ho conn Hconn) as [-> Hh]. split_and!.
        - subst s2; simpl. apply lookup_delete_eq.
        - unfold closed_at. rewrite Hh. subst s2; simpl. rewrite lookup_insert_eq. eauto.
        - apply Hcs. subst s2; simpl. set_solver.
        - unfold sent at 1. rewrite Hh. subst s2; simpl. rewrite lookup_insert_eq. simpl.
          unfold sent. by rewrite Hcl. }
      assert (c ≠ conn) by set_solver.
      rewrite <-Hfs in Hfc by done. rewrite <-Hss by done. by apply Hf.
    + intros c [->|Hc]%elem_of_cons Hfc.
      { unfold chan_full in Hfc. rewrite Hcl in Hfc. congruence. }
      assert (c ≠ conn) by set_solver.
      rewrite <-Hfs in Hfc by done. rewrite <-Hss by done.
      destruct (Hn c Hc Hfc) as (-> & ? & ?). split_and!; try done.
      subst s2; simpl. by rewrite lookup_delete_ne.
    + intros c Hc. apply not_elem_of_cons in Hc as [Hc1 Hc2].
      destruct (Ho c Hc2) as [-> ->]. subst s2; simpl.
      rewrite lookup_delete_ne by done. by rewrite lookup_insert_ne.
    + intros c Hc. apply Hcs. subst s2; simpl. set_solver.
  - apply chansend_panic in Hsend. congruence.
Qed.

Lemma broadcast_loop_dom todo s message :
  dom (clients (state_of (broadcast_loop s message todo))) ⊆ dom (clients s).
Proof.
  revert s. induction todo as [|conn rest IH]; intros s; cbn [broadcast_loop]; [done|].
  destruct (heap s !! conn) as [cl|]; [|done].
  destruct (Chan.chansend _ _); [by etrans; [apply IH|]| |done].
  destruct (Chan.closechan _); [|done].
  etrans; [apply IH|]. simpl. rewrite dom_delete. set_solver.
Qed.

Lemma broadcast_loop_quiet todo s message :
  NoDup todo → (∀ c, c ∈ todo → chan_full s c = false) →
  is_panic (broadcast_loop s message todo) = false →
  clients (state_of (broadcast_loop s message todo)) = clients s.
Proof.
  revert s. induction todo as [|conn rest IH]; intros s Hnd Hnf; cbn [broadcast_loop]; [done|].
  apply NoDup_cons in Hnd as [Hconn Hnd].
  destruct (heap s !! conn) as [cl|] eqn:Hcl; [|done].
  destruct (Chan.chansend (Client.send cl) message) as [ch| |] eqn:Hsend; [| |done].
  - intros Hp. rewrite IH; [done..| |done]. intros c Hc. rewrite chan_full_set_send.
    rewrite decide_False by set_solver. apply Hnf. set_solver.
  - apply chansend_full in Hsend. specialize (Hnf conn). unfold chan_full in Hnf.
    rewrite Hcl in Hnf. rewrite Hnf in Hsend by set_solver. done.
Qed.

(** *** Effect of one event on the peer set *)

Lemma step_dom_sub o e o' :
  step o e = Some o' → is_panic o' = false →
  dom (clients (state_of o')) ⊆ membership_step (dom (clients (state_of o))) e ∧
  (quiet o e →
   dom (clients (state_of o')) = membership_step (dom (clients (state_of o))) e).
Proof.
  intros Hstep Hp.
  destruct o as [s|s conn rest message ignore|s], e as [c uuid|r|c];
    cbn [step] in Hstep; try done.
  - destruct (heap s !! c); [done|]. injection Hstep as <-.
    unfold wsPage, start_step, send. cbn [membership_step state_of].
    destruct (send_loop_clients
      {| clients := <[c:=true]> (clients s);
         heap := <[c:={| Client.id := uuid; Client.send := Chan.make 0 |}]> (heap s);
         closes := closes s |}
      (json_Marshal connected_message) c (range_order
      {| clients := <[c:=true]> (clients s);
         heap := <[c:={| Client.id := uuid; Client.send := Chan.make 0 |}]> (heap s);
         closes := closes s |})) as [Hc _].
    simpl in Hc. simpl. rewrite Hc, dom_insert_L. set_solver.
  - injection Hstep as <-. destruct r as [c|c|m]; cbn [membership_step state_of start_step] in *.
    + unfold send.
      destruct (send_loop_clients
        {| clients := <[c:=true]> (clients s); heap := heap s; closes := closes s |}
        (json_Marshal connected_message) c (range_order
        {| clients := <[c:=true]> (clients s); heap := heap s; closes := closes s |}))
        as [Hc _].
      rewrite Hc. simpl. rewrite dom_insert_L. set_solver.
    + destruct (clients s !! c) eqn:Hin.
      * destruct (heap s !! c) as [cl|]; [|done].
        destruct (Chan.closechan _) as [ch|]; [|done]. unfold send.
        match goal with |- context [send_loop ?s1 ?m ?i ?t] =>
          destruct (send_loop_clients s1 m i t) as [Hc _] end.
        rewrite Hc. simpl. rewrite dom_delete_L. done.
      * simpl. apply not_elem_of_dom in Hin. set_solver.
    + split; [apply broadcast_loop_dom|]. intros Hq. simpl.
      rewrite broadcast_loop_quiet; [done|apply NoDup_range_order| |done].
      intros c' Hc'. apply Hq; [done|]. by apply elem_of_range_order in Hc'.
  - injection Hstep as <-. cbn [membership_step state_of].
    destruct (writer_recv_clients s c) as [-> _]. done.
  - cbn [membership_step state_of]. case_decide; injection Hstep as <-.
    + unfold resume_send. destruct (heap s !! conn) as [cl|]; [|done].
      match goal with |- context [send_loop ?s1 ?m ?i ?t] =>
        destruct (send_loop_clients s1 m i t) as [Hc _] end.
      rewrite Hc. done.
    + cbn [state_of]. destruct (writer_recv_clients s c) as [-> _]. done.
Qed.

Lemma registered_not_removed_mono evs A B :
  A ⊆ B → registered_not_removed A evs ⊆ registered_not_removed B evs.
Proof.
  revert A B. unfold registered_not_removed.
  induction evs as [|e evs IH]; intros A B HAB; simpl; [done|].
  apply IH. destruct e as [c uuid|[c|c|m]|c]; simpl; set_solver.
Qed.

Lemma run_dom evs o o' :
  run o evs = Some o' → is_panic o' = false →
  dom (clients (state_of o')) ⊆ registered_not_removed (dom (clients (state_of o))) evs ∧
  (no_eviction o evs →
   dom (clients (state_of o')) = registered_not_removed (dom (clients (state_of o))) evs).
Proof.
  revert o. induction evs as [|e evs IH]; intros o Hrun Hp.
  { simpl in Hrun. injection Hrun as ->. done. }
  cbn [run] in Hrun. destruct (step o e) as [o1|] eqn:Hstep; [|done].
  assert (is_panic o1 = false) as Hp1.
  { destruct o1; try done. destruct evs; simpl in Hrun; [|done].
    injection Hrun as <-. done. }
  destruct (step_dom_sub _ _ _ Hstep Hp1) as [Hsub Heq].
  destruct (IH _ Hrun Hp) as [IHsub IHeq]. unfold registered_not_removed in *.
  cbn [foldl]. split.
  - etrans; [apply IHsub|]. by apply registered_not_removed_mono.
  - cbn [no_eviction]. rewrite Hstep. intros [He Hev].
    rewrite (IHeq Hev). by rewrite (Heq He).
Qed.

(** *** Consistency is kept *)

Lemma open_not_closed s c : open_at s c → closed_at s c → False.
Proof. intros (cl & Hcl & Ho) (cl' & Hcl' & Hc). congruence. Qed.

Lemma wf_set_send s conn cl ch :
  wf s → heap s !! conn = Some cl →
  Chan.closed ch = Chan.closed (Client.send cl) →
  wf (set_send conn cl ch s).
Proof.
  intros (Hco & Hcl & Hnd) Hconn Hch. split_and!; [| |done].
  - intros c Hc. destruct (Hco c Hc) as (cl' & Hcl' & Ho). unfold open_at; simpl.
    destruct (decide (c = conn)) as [->|Hne].
    + rewrite lookup_insert_eq. eexists; split; [done|]. simpl. congruence.
    + rewrite lookup_insert_ne by done. eauto.
  - intros c. rewrite Hcl. unfold closed_at; simpl.
    destruct (decide (c = conn)) as [->|Hne].
    + rewrite lookup_insert_eq, Hconn. split; intros (cl' & [= <-] & Ho); simpl in *.
      * eexists; split; [done|]. simpl. congruence.
      * eexists; split; [done|]. congruence.
    + by rewrite lookup_insert_ne.
Qed.

Lemma wf_writer_recv s c : wf s → wf (writer_recv s c).
Proof.
  intros Hwf. unfold writer_recv. destruct (heap s !! c) as [cl|] eqn:Hcl; [|done].
  destruct (Chan.chanrecv _) as [m ch| |ch] eqn:Hr; [|done|].
  - apply wf_set_send; [done..|]. by apply chanrecv_val in Hr as [-> _].
  - apply wf_set_send; [done..|]. by apply chanrecv_park in Hr as [-> _].
Qed.

Lemma wf_close_delete s conn cl ch :
  wf s → heap s !! conn = Some cl → Chan.closechan (Client.send cl) = Some ch →
  wf {| clients := delete conn (clients s);
        heap := <[conn := {| Client.id := Client.id cl; Client.send := ch |}]> (heap s);
        closes := closes s ++ [conn] |}.
Proof.
  intros (Hco & Hcl & Hnd) Hconn (Hop & Hch & _)%closechan_some.
  assert (open_at s conn) as Hoc by (unfold open_at; eauto).
  split_and!; simpl.
  - intros c Hc. simpl in Hc. rewrite dom_delete in Hc.
    apply elem_of_difference in Hc as [Hc Hne].
    destruct (Hco c Hc) as (cl' & Hcl' & Ho). exists cl'. simpl.
    rewrite lookup_insert_ne by set_solver. done.
  - intros c. rewrite elem_of_app, list_elem_of_singleton, Hcl. unfold closed_at; simpl.
    destruct (decide (c = conn)) as [->|Hne].
    + rewrite lookup_insert_eq. split; [eauto|]. by right.
    + rewrite lookup_insert_ne by done. split; [|by left]. by intros [?|?].
  - apply NoDup_app. split_and!; [done| |apply NoDup_singleton].
    intros c Hc ->%list_elem_of_singleton. eapply open_not_closed; [done|]. by apply Hcl.
Qed.

Lemma send_loop_inv todo s message ignore :
  wf s → (∀ c, c ∈ todo → c ≠ ignore → c ∈ dom (clients s)) →
  inv (send_loop s message ignore todo).
Proof.
  revert s. induction todo as [|conn rest IH]; intros s Hwf Hin; cbn [send_loop].
  { by split_and!. }
  case_decide as Hi.
  { apply IH; [done|]. intros c ??. apply Hin; set_solver. }
  destruct (proj1 Hwf conn) as (cl & Hcl & Hop); [apply Hin; set_solver|]. rewrite Hcl.
  destruct (Chan.chansend (Client.send cl) message) as [ch| |] eqn:Hsend.
  - apply chansend_ok in Hsend as (_ & Hch & _ & _). apply IH.
    + apply wf_set_send; [done..|congruence].
    + intros c ??. simpl. apply Hin; set_solver.
  - split_and!; [done..| |]; [apply Hin; set_solver|].
    intros c ??. apply Hin; set_solver.
  - apply chansend_panic in Hsend. congruence.
Qed.

Lemma broadcast_loop_inv todo s message :
  wf s → NoDup todo → (∀ c, c ∈ todo → c ∈ dom (clients s)) →
  inv (broadcast_loop s message todo).
Proof.
  revert s. induction todo as [|conn rest IH]; intros s Hwf Hnd Hin; cbn [broadcast_loop].
  { by split_and!. }
  apply NoDup_cons in Hnd as [Hconn Hnd].
  destruct (proj1 Hwf conn) as (cl & Hcl & Hop); [apply Hin; set_solver|]. rewrite Hcl.
  destruct (Chan.chansend (Client.send cl) message) as [ch| |] eqn:Hsend.
  - apply chansend_ok in Hsend as (_ & Hch & _ & _). apply IH; [|done|].
    + apply wf_set_send; [done..|congruence].
    + intros c ?. simpl. apply Hin; set_solver.
  - destruct (closechan_open _ Hop) as [ch Hclose]. rewrite Hclose.
    apply IH; [by eapply wf_close_delete|done|].
    intros c Hc. simpl. rewrite dom_delete. apply elem_of_difference.
    split; [apply Hin|]; set_solver.
  - apply chansend_panic in Hsend. congruence.
Qed.

Lemma register_inv s conn :
  wf s → open_at s conn → inv (start_step s (Register conn)).
Proof.
  intros (Hco & Hcl & Hnd) Hopen. cbn [start_step]. unfold send. apply send_loop_inv.
  - split_and!; [|done..]. intros c Hc. simpl in Hc. rewrite dom_insert in Hc.
    apply elem_of_union in Hc as [->%elem_of_singleton|Hc]; [done|]. by apply Hco.
  - intros c Hc _. by apply elem_of_range_order in Hc.
Qed.

Lemma step_inv o e o' :
  inv o → ¬ is_register e →
  step o e = Some o' → inv o'.
Proof.
  intros (Hp & Hwf & Hpend) He Hstep.
  destruct o as [s|s conn rest message ignore|s], e as [c uuid|r|c];
    cbn [step state_of] in *; try done.
  - destruct (heap s !! c) eqn:Hfresh; [done|]. injection Hstep as <-.
    unfold wsPage. apply register_inv.
    + destruct Hwf as (Hco & Hcl & Hnd). split_and!; [| |done].
      * intros c' Hc'. destruct (Hco c' Hc') as (cl & Hcl' & Ho). exists cl.
        simpl. rewrite lookup_insert_ne by congruence. done.
      * intros c'. rewrite Hcl. unfold closed_at; simpl.
        destruct (decide (c' = c)) as [->|Hne].
        -- rewrite lookup_insert_eq, Hfresh. split; intros (cl & [= <-] & Ho); done.
        -- by rewrite lookup_insert_ne.
    + unfold open_at; simpl. rewrite lookup_insert_eq. eauto.
  - injection Hstep as <-. destruct r as [c|c|m]; [by destruct He| |]; cbn [start_step].
    + destruct (clients s !! c) eqn:Hin; [|by split_and!].
      destruct (proj1 Hwf c) as (cl & Hcl & Hop); [by apply elem_of_dom|]. rewrite Hcl.
      destruct (closechan_open _ Hop) as [ch Hclose]. rewrite Hclose.
      unfold send. apply send_loop_inv; [by eapply wf_close_delete|].
      intros c' Hc' _. by apply elem_of_range_order in Hc'.
    + apply broadcast_loop_inv; [done|apply NoDup_range_order|].
      intros c Hc. by apply elem_of_range_order in Hc.
  - injection Hstep as <-. split_and!; [done| |done]. by apply wf_writer_recv.
  - case_decide as Hc; injection Hstep as <-.
    + subst c. unfold resume_send.
      destruct (proj1 Hwf conn) as (cl & Hcl & Hop); [exact (proj1 Hpend)|].
      rewrite Hcl. apply send_loop_inv.
      * apply wf_set_send; [done..|].
        by destruct (recv_from_sender_spec (Client.send cl) message) as [-> _].
      * intros c ??. simpl. by apply (proj2 Hpend).
    + cbn [state_of]. destruct (writer_recv_clients s c) as [Hsame _].
      split; [done|]. split; [by apply wf_writer_recv|]. by rewrite Hsame.
Qed.

Lemma run_inv evs o o' :
  inv o → Forall (λ e, ¬ is_register e) evs →
  run o evs = Some o' → inv o'.
Proof.
  revert o. induction evs as [|e evs IH]; intros o Hinv Hev Hrun.
  { simpl in Hrun. by injection Hrun as <-. }
  apply Forall_cons in Hev as [He Hev]. cbn [run] in Hrun.
  destruct (step o e) as [o1|] eqn:Hstep; [|done].
  eapply IH; [|done..]. by eapply step_inv.
Qed.

Lemma inv_manager : inv (Done manager).
Proof.
  split_and!; [done| |done]. split_and!.
  - intros c Hc. simpl in Hc. set_solver.
  - intros c. unfold closed_at; simpl. rewrite lookup_empty. split; [set_solver|].
    by intros (cl & ? & _).
  - simpl. constructor.
Qed.

Lemma clients_openb_sound s : clients_openb s = true → clients_open s.
Proof.
  unfold clients_openb, clients_open. rewrite forallb_forall.
  intros H conn Hc. specialize (H conn). unfold open_atb, open_at in *.
  destruct (heap s !! conn) as [cl|].
  - exists cl. split; [done|]. apply negb_true_iff, H.
    apply list_elem_of_In. unfold keys. rewrite list_elem_of_fmap.
    apply elem_of_dom in Hc as [v Hv]. exists (conn, v). split; [done|].
    by apply elem_of_map_to_list.
  - exfalso. assert (false = true); [|done]. apply H.
    apply list_elem_of_In. unfold keys. rewrite list_elem_of_fmap.
    apply elem_of_dom in Hc as [v Hv]. exists (conn, v). split; [done|].
    by apply elem_of_map_to_list.
Qed.


Lemma registered_not_removed_absent c evs A :
  c ∉ A → Forall (λ e, ¬ registers c e) evs → c ∉ registered_not_removed A evs.
Proof.
  revert A. unfold registered_not_removed.
  induction evs as [|e evs IH]; intros A HA Hev; simpl; [done|].
  apply Forall_cons in Hev as [He Hev]. apply IH; [|done].
  destruct e as [c' uuid|[c'|c'|m]|c']; simpl in *; set_solver.
Qed.

Lemma read_requests c cid msgs script :
  requests_of (read c cid ((ReadOk <$> msgs) ++ ReadErr :: script)).1
  = ((λ m, Broadcast (json_Marshal
        {| Sender := cid; Recipient := EmptyString; Content := m |})) <$> msgs)
    ++ [Unregister c; Unregister c].
Proof.
  induction msgs as [|m msgs IH]; [done|].
  cbn [fmap list_fmap app read] in *.
  destruct (read c cid _) as [tr fin]. simpl in *. by rewrite IH.
Qed.

Lemma write_requests script : requests_of (write script).1 = [].
Proof.
  induction script as [|[m e|e] script IH]; [done| |done].
  cbn [write]. destruct (write script) as [tr fin]. done.
Qed.

Lemma write_returns script : (write script).2 = true ↔ ∃ e, NotOk e ∈ script.
Proof.
  induction script as [|[m e|e] script IH].
  - split; [done|]. intros [e He]. set_solver.
  - cbn [write]. destruct (write script) as [tr fin]. simpl in *. rewrite IH.
    split; intros [e' He']; exists e'; set_solver.
  - split; [|done]. intros _. exists e. set_solver.
Qed.

Lemma send_fanout s message P evs o :
  Forall is_recv evs → run (send s message P) evs = Some o →
  is_panic o = false →
  sent (state_of o) P = sent s P ∧ owed o P = [] ∧
  (∀ c, c ∉ dom (clients s) → sent (state_of o) c = sent s c) ∧
  (∀ c, c ∈ dom (clients s) → c ≠ P →
     sent (state_of o) c ++ owed o c = sent s c ++ [message]) ∧
  (∀ s', o = Done s' →
     ∀ c, c ∈ dom (clients s) → c ≠ P → sent s' c = sent s c ++ [message]).
Proof.
  intros Hev Hrun Hp.
  pose proof (send_account s message P evs o Hev Hrun Hp) as Hacc.
  assert (∀ c, ¬ (c ∈ dom (clients s) ∧ c ≠ P) →
               owed o c = [] ∧ sent (state_of o) c = sent s c) as Hsame.
  { intros c Hc. specialize (Hacc c). rewrite decide_False in Hacc by done.
    assert (owed o c = []) as Ho.
    { apply (owed_nil o (range_order s) P).
      - eapply run_recv_pending_in; [done| |done]. apply send_loop_pending_in.
      - by rewrite elem_of_range_order. }
    rewrite Ho, !app_nil_r in Hacc. done. }
  split_and!.
  - apply Hsame. tauto.
  - apply Hsame. tauto.
  - intros c Hc. apply Hsame. tauto.
  - intros c Hc Hne. rewrite Hacc. by rewrite decide_True.
  - intros s' -> c Hc Hne. specialize (Hacc c). rewrite decide_True in Hacc by done.
    cbn [state_of owed] in Hacc. by rewrite app_nil_r in Hacc.
Qed.

(** * Properties of the hub *)

(** C1 (amended): the deliveries of the broadcast path are attempts that never
    wait: a broadcast pass never leaves the manager parked on a client's
    channel.  The announcement fan-out of an admission or a disconnect goes
    through [send], whose deliveries are blocking sends: with the targets
    allocated and open, the manager parks in [send] exactly when the channel
    of some client of the map other than the ignored one is full; so an
    admission parks the manager exactly when the channel of some client
    already in the map is full. *)
Theorem broadcast_never_waits_send_waits_on_full :
  (∀ s message, is_blocked (start_step s (Broadcast message)) = false) ∧
  (∀ s message ignore,
     (∀ c, c ∈ dom (clients s) → c ≠ ignore → open_at s c) →
     (is_blocked (send s message ignore) = true ↔
      ∃ c, c ∈ dom (clients s) ∧ c ≠ ignore ∧ chan_full s c = true)) ∧
  (∀ s conn, clients_open s →
     (is_blocked (start_step s (Register conn)) = true ↔
      ∃ c, c ∈ dom (clients s) ∧ c ≠ conn ∧ chan_full s c = true)).
Proof.
  assert (∀ s message ignore,
     (∀ c, c ∈ dom (clients s) → c ≠ ignore → open_at s c) →
     (is_blocked (send s message ignore) = true ↔
      ∃ c, c ∈ dom (clients s) ∧ c ≠ ignore ∧ chan_full s c = true)) as Hsend.
  { intros s message ignore Hopen. unfold send.
    destruct (send_loop_blocked_iff (range_order s) s message ignore) as [_ ->].
    - by apply NoDup_range_order.
    - intros c Hc Hne. apply Hopen; [|done]. by apply elem_of_range_order in Hc.
    - split; intros (c & Hc & ?); exists c; by rewrite elem_of_range_order in *. }
  split_and!; [|done|].
  - intros s message. apply broadcast_loop_not_blocked.
  - intros s conn Hopen. cbn [start_step]. rewrite Hsend.
    + simpl. split; intros (c & Hc & Hne & Hf); exists c; (split_and!; [|done..]).
      * rewrite dom_insert in Hc. set_solver.
      * rewrite dom_insert. set_solver.
    + simpl. intros c Hc Hne. rewrite dom_insert in Hc. apply Hopen. set_solver.
Qed.

(** The client map against the register and unregister requests alone. *)
Lemma peer_set_and_remove_requests s evs o :
  run (Done s) evs = Some o → is_panic o = false →
  NoDup (keys (state_of o)) ∧
  dom (clients (state_of o)) ⊆ registered_not_removed (dom (clients s)) evs ∧
  (no_eviction (Done s) evs →
   dom (clients (state_of o)) = registered_not_removed (dom (clients s)) evs).
Proof.
  intros Hrun Hp. split; [apply NoDup_keys|].
  exact (run_dom evs (Done s) o Hrun Hp).
Qed.





(** C3: a client of the map whose channel is full when a broadcast reaches it
    has its channel closed and is deleted from the map in that same pass; the
    pass runs to its end, back to the [select], and nothing is reported to
    whoever put the message on [manager.broadcast]. *)
Theorem broadcast_removes_full_peer s message c :
  clients_open s → c ∈ dom (clients s) → chan_full s c = true →
  ∃ s', start_step s (Broadcast message) = Done s' ∧
        (c ∉ dom (clients s')) ∧ closed_at s' c ∧ c ∈ closes s'.
Proof.
  intros Hopen Hc Hfull. cbn [start_step].
  destruct (broadcast_loop_spec (range_order s) s message) as (s' & Hs' & Hf & _).
  - by apply NoDup_range_order.
  - intros c' Hc'. apply Hopen. by apply elem_of_range_order in Hc'.
  - exists s'. split; [done|].
    destruct (Hf c) as (Hnone & Hcl & Hlog & _); [by apply elem_of_range_order|done|].
    split_and!; [|done..]. by apply not_elem_of_dom.
Qed.

(** C4: serving two unregister requests for [c] in a row ends in the state
    that serving one ends in.  More generally, once an unregister request for
    [c] has been served, and whatever the manager and the write loops do next
    short of admitting [c] again, a second unregister request for [c] changes
    nothing: the state is the same, so no channel is closed and no
    announcement is sent.  The read loop does issue that request twice on a
    read error, once inline and once from its deferred call. *)
Theorem unregister_twice_is_once :
  (∀ s c s',
     start s [Unregister c] = Some (Done s') →
     start s [Unregister c; Unregister c] = Some (Done s')) ∧
  (∀ s c evs s',
     Forall (λ e, ¬ registers c e) evs →
     run (Done s) (Req (Unregister c) :: evs) = Some (Done s') →
     start_step s' (Unregister c) = Done s') ∧
  (∀ c cid msgs script,
     requests_of (read c cid ((ReadOk <$> msgs) ++ ReadErr :: script)).1
     = ((λ m, Broadcast (json_Marshal
           {| Sender := cid; Recipient := EmptyString; Content := m |})) <$> msgs)
       ++ [Unregister c; Unregister c]).
Proof.
  assert (∀ s c evs s',
     Forall (λ e, ¬ registers c e) evs →
     run (Done s) (Req (Unregister c) :: evs) = Some (Done s') →
     start_step s' (Unregister c) = Done s') as Hagain.
  { intros s c evs s' Hev Hrun.
    destruct (run_dom _ _ _ Hrun eq_refl) as [Hsub _].
    assert (c ∉ dom (clients s')) as Hc.
    { intros Hc. apply Hsub in Hc. revert Hc.
      unfold registered_not_removed. cbn [foldl membership_step state_of].
      apply registered_not_removed_absent; [set_solver|done]. }
    cbn [start_step]. apply not_elem_of_dom in Hc. by rewrite Hc. }
  split_and!; [|done|apply read_requests].
  intros s c s' Hfirst.
  assert (start_step s (Unregister c) = Done s') as Hone.
  { change (Some (start_step s (Unregister c)) = Some (Done s')) in Hfirst.
    congruence. }
  unfold start. cbn [fmap list_fmap run step]. rewrite Hone. cbn [run step].
  rewrite (Hagain s c [] s'); [done|constructor|].
  cbn [run step]. by rewrite Hone.
Qed.

(** C5 (amended): with every client allocated and open, exactly one client
    [p] of the map having a full channel, one broadcast deletes [p] and no
    other client, every other client of the map gets the message and
    nothing else on its channel, and nothing is sent to [p]; no disconnect
    announcement is made in that pass, and the unregister request that the
    read loop of [p] issues later changes nothing either. *)
Theorem broadcast_with_one_full_peer s message p :
  clients_open s → p ∈ dom (clients s) → chan_full s p = true →
  (∀ c, c ∈ dom (clients s) → c ≠ p → chan_full s c = false) →
  ∃ s', start_step s (Broadcast message) = Done s' ∧
        dom (clients s') = dom (clients s) ∖ {[p]} ∧
        (∀ c, c ∈ dom (clients s) → c ≠ p → sent s' c = sent s c ++ [message]) ∧
        sent s' p = sent s p ∧
        start_step s' (Unregister p) = Done s'.
Proof.
  intros Hopen Hp Hfull Hothers. cbn [start_step].
  destruct (broadcast_loop_spec (range_order s) s message) as (s' & Hs' & Hf & Hn & Ho & _).
  { by apply NoDup_range_order. }
  { intros c' Hc'. apply Hopen. by apply elem_of_range_order in Hc'. }
  exists s'. split; [done|].
  destruct (Hf p) as (Hnone & _ & _ & Hsent); [by apply elem_of_range_order|done|].
  split_and!; [| |done|by rewrite Hnone].
  - apply set_eq. intros c. rewrite elem_of_difference, elem_of_singleton, !elem_of_dom.
    destruct (decide (c = p)) as [->|Hne].
    { rewrite Hnone. split; [by intros [??]|]. by intros [_ ?]. }
    destruct (decide (c ∈ range_order s)) as [Hin|Hout].
    + destruct (Hn c Hin) as (-> & _); [|tauto].
      apply Hothers; [|done]. by apply elem_of_range_order in Hin.
    + destruct (Ho c Hout) as [-> _]. tauto.
  - intros c Hc Hne. apply (Hn c); [by apply elem_of_range_order|by apply Hothers].
Qed.

(** C6: a fan-out of [send] that ignores [P], followed while the write loops
    receive: at no point has anything been put on the channel of [P] or of a
    client outside the map; when the fan-out is through, every other client
    of the map has received the message on its channel exactly once and
    nothing else.  With the clients allocated and open the fan-out does get
    through once the write loops it waits for receive. *)
Theorem send_delivers_once_to_all_but_ignored s message P :
  (∀ evs o, Forall is_recv evs → run (send s message P) evs = Some o →
     is_panic o = false →
     sent (state_of o) P = sent s P ∧ owed o P = [] ∧
     (∀ c, c ∉ dom (clients s) → sent (state_of o) c = sent s c) ∧
     (∀ c, c ∈ dom (clients s) → c ≠ P →
        sent (state_of o) c ++ owed o c = sent s c ++ [message]) ∧
     (∀ s', o = Done s' →
        ∀ c, c ∈ dom (clients s) → c ≠ P → sent s' c = sent s c ++ [message])) ∧
  (clients_open s →
   ∃ evs s', Forall is_recv evs ∧ run (send s message P) evs = Some (Done s')).
Proof.
  split.
  - apply send_fanout.
  - intros Hopen. unfold send. apply send_loop_completes.
    intros c Hc _. apply Hopen. by apply elem_of_range_order in Hc.
Qed.

(** C7: the register case first puts the new client into the map and then
    calls [send] with the new client as the one to ignore: at every point of
    the fan-out the new client is in the map; nothing is ever put on its own
    channel; when the fan-out is through, every client that was in the map
    has the announcement once more on its channel.  With the clients
    allocated and open the fan-out does get through. *)
Theorem register_adds_then_announces s conn :
  start_step s (Register conn)
  = send {| clients := <[conn := true]> (clients s); heap := heap s; closes := closes s |}
         (json_Marshal connected_message) conn ∧
  (∀ evs o, Forall is_recv evs → run (start_step s (Register conn)) evs = Some o →
     conn ∈ dom (clients (state_of o)) ∧
     (is_panic o = false →
      sent (state_of o) conn = sent s conn ∧ owed o conn = [] ∧
      ∀ s', o = Done s' →
        ∀ c, c ∈ dom (clients s) → c ≠ conn →
          sent s' c = sent s c ++ [json_Marshal connected_message])) ∧
  (clients_open s →
   ∃ evs s', Forall is_recv evs ∧ run (start_step s (Register conn)) evs = Some (Done s')).
Proof.
  set (s1 := {| clients := <[conn := true]> (clients s); heap := heap s; closes := closes s |}).
  split; [done|]. cbn [start_step]. fold s1. split.
  - intros evs o Hev Hrun. split.
    + destruct (run_recv_clients _ _ _ Hev Hrun) as [-> _]. unfold send.
      destruct (send_loop_clients s1 (json_Marshal connected_message) conn (range_order s1))
        as [-> _].
      simpl. rewrite dom_insert. set_solver.
    + intros Hp.
      destruct (send_fanout s1 (json_Marshal connected_message) conn evs o Hev Hrun Hp)
        as (Hself & Howed & _ & _ & Hdone).
      split; [done|]. split; [done|]. intros s' -> c Hc Hne.
      apply (Hdone s' eq_refl c); [|done]. simpl. rewrite dom_insert. set_solver.
  - intros Hopen. unfold send. apply send_loop_completes.
    intros c Hc Hne. apply elem_of_range_order in Hc. simpl in Hc.
    rewrite dom_insert in Hc. apply Hopen. set_solver.
Qed.

(** C8: whatever its receives yield and whether or not its transport writes
    fail, the write loop puts no request on any of the manager's channels; it
    returns exactly when a receive reports its channel closed.  Its receive
    leaves the client map and the list of closed channels as they are, and in
    an execution of the program a receive can report the channel closed only
    for a client whose channel the manager has closed. *)
Theorem write_loop_never_unregisters :
  (∀ script, requests_of (write script).1 = []) ∧
  (∀ script, (write script).2 = true ↔ ∃ e, NotOk e ∈ script) ∧
  (∀ o c o', step o (Recv c) = Some o' →
     clients (state_of o') = clients (state_of o) ∧
     closes (state_of o') = closes (state_of o)) ∧
  (∀ evs o c cl,
     Forall (λ e, ¬ is_register e) evs → run (Done manager) evs = Some o →
     heap (state_of o) !! c = Some cl →
     Chan.chanrecv (Client.send cl) = Chan.RecvClosed →
     c ∈ closes (state_of o)).
Proof.
  split_and!.
  - apply write_requests.
  - apply write_returns.
  - intros o c o' Hstep. apply (run_recv_clients [Recv c]).
    + by repeat constructor.
    + cbn [run]. by rewrite Hstep.
  - intros evs o c cl Hev Hrun Hcl Hrecv.
    destruct (run_inv evs (Done manager) o inv_manager Hev Hrun) as (_ & (_ & Hcloses & _) & _).
    apply Hcloses. exists cl. split; [done|]. by apply chanrecv_closed.
Qed.

(** C9 (amended): the announcement made on admission is the envelope whose
    only non-empty field is the content "/A new socket has connected.", the
    one made on unregistration the envelope whose only non-empty field is the
    content "/A socket has disconnected."; both start with a slash, and both
    are marshalled with the content field alone. *)
Theorem announcement_envelopes :
  connected_message
  = {| Sender := EmptyString; Recipient := EmptyString;
       Content := "/A new socket has connected." |} ∧
  disconnected_message
  = {| Sender := EmptyString; Recipient := EmptyString;
       Content := "/A socket has disconnected." |} ∧
  json_Marshal connected_message
  = "{" +:+ dq +:+ "content" +:+ dq +:+ ":" +:+
    json_string "/A new socket has connected." +:+ "}" ∧
  json_Marshal disconnected_message
  = "{" +:+ dq +:+ "content" +:+ dq +:+ ":" +:+
    json_string "/A socket has disconnected." +:+ "}" ∧
  (∀ s conn,
     start_step s (Register conn)
     = send {| clients := <[conn := true]> (clients s); heap := heap s;
               closes := closes s |}
            (json_Marshal connected_message) conn) ∧
  (∀ s conn b cl ch,
     clients s !! conn = Some b → heap s !! conn = Some cl →
     Chan.closechan (Client.send cl) = Some ch →
     start_step s (Unregister conn)
     = send {| clients := delete conn (clients s);
               heap := <[conn := {| Client.id := Client.id cl; Client.send := ch |}]> (heap s);
               closes := closes s ++ [conn] |}
            (json_Marshal disconnected_message) conn).
Proof.
  split_and!; try reflexivity.
  intros s conn b cl ch Hb Hcl Hch. cbn [start_step]. by rewrite Hb, Hcl, Hch.
Qed.

(** C10: in every execution of the program in which clients are admitted
    through [wsPage], no panic occurs (in particular no close of a closed
    channel), no client appears twice in the list of the channels the manager
    has closed, and a client whose channel has been closed is no longer in
    the map. *)
Theorem send_channel_closed_at_most_once evs o :
  Forall (λ e, ¬ is_register e) evs → run (Done manager) evs = Some o →
  is_panic o = false ∧ NoDup (closes (state_of o)) ∧
  (∀ c, c ∈ closes (state_of o) → c ∉ dom (clients (state_of o))).
Proof.
  intros Hev Hrun.
  destruct (run_inv evs (Done manager) o inv_manager Hev Hrun)
    as (Hp & (Hopen & Hcloses & Hnd) & _).
  split_and!; [done..|]. intros c Hc Hin.
  eapply open_not_closed; [by apply Hopen|by apply Hcloses].
Qed.

(** * Further properties of the code *)

(** ** Histories of channels and of the heap *)

Lemma chan_step_facts ch ch' :
  chan_step ch ch' →
  Chan.cap ch' = Chan.cap ch ∧
  (Chan.closed ch = true → Chan.closed ch' = true) ∧
  Chan.sent ch `prefix_of` Chan.sent ch' ∧
  Chan.taken ch `prefix_of` Chan.taken ch' ∧
  (Chan.cap ch = 0 → Chan.buf ch = [] → Chan.buf ch' = []).
Proof.
  destruct 1 as [ch m ch' H|ch ch' H|ch m ch' H|ch ch' H|ch m];
    destruct ch as [n w cl tk];
    unfold Chan.chansend, Chan.closechan, Chan.chanrecv, Chan.recv_from_sender,
      Chan.sent, Chan.buf in *; simpl in *.
  - destruct cl; [done|]. destruct w as [b|].
    + destruct (List.length b <? n)%nat eqn:Hl; [|done].
      injection H as <-. simpl. split_and!; try done.
      * exists [m]. by rewrite app_assoc.
      * intros -> ->. done.
    + injection H as <-. simpl. split_and!; try done.
      * exists [m]. by rewrite !app_nil_r.
      * by exists [m].
  - destruct cl; [done|]. injection H as <-. simpl. by split_and!.
  - destruct w as [[|h b]|]; [by destruct cl| |by destruct cl].
    injection H as <- <-. simpl. split_and!; try done.
    + by rewrite <-app_assoc.
    + by exists [h].
  - destruct w as [[|h b]|]; [|done|]; (destruct cl; [done|]);
      injection H as <-; simpl; by split_and!.
  - destruct w as [[|h b]|]; simpl.
    + split_and!; try done; exists [m]; by rewrite ?app_nil_r.
    + split_and!; try done.
      * exists [m]. by rewrite <-!app_assoc.
      * by exists [h].
    + split_and!; try done; exists [m]; by rewrite ?app_nil_r.
Qed.

Lemma chan_steps_facts ch ch' :
  rtc chan_step ch ch' →
  Chan.cap ch' = Chan.cap ch ∧
  (Chan.closed ch = true → Chan.closed ch' = true) ∧
  Chan.sent ch `prefix_of` Chan.sent ch' ∧
  Chan.taken ch `prefix_of` Chan.taken ch' ∧
  (Chan.cap ch = 0 → Chan.buf ch = [] → Chan.buf ch' = []).
Proof.
  induction 1 as [ch|ch ch1 ch' H1 _ IH]; [by split_and!|].
  destruct (chan_step_facts _ _ H1) as (Hcap & Hcl & Hs & Ht & Hb).
  destruct IH as (Hcap' & Hcl' & Hs' & Ht' & Hb').
  split_and!.
  - congruence.
  - auto.
  - by etrans.
  - by etrans.
  - intros H0 Hnil. apply Hb'; [congruence|by apply Hb].
Qed.

Lemma heap_evolves_refl s : heap_evolves s s.
Proof.
  split; [by eauto|]. intros c cl' Hcl'. rewrite Hcl'. done.
Qed.

Lemma heap_evolves_trans s1 s2 s3 :
  heap_evolves s1 s2 → heap_evolves s2 s3 → heap_evolves s1 s3.
Proof.
  intros [Hk1 He1] [Hk2 He2]. split.
  - intros c cl Hcl. destruct (Hk1 c cl Hcl) as [cl2 Hcl2]. by eapply Hk2.
  - intros c cl3 Hcl3. specialize (He2 c cl3 Hcl3).
    destruct (heap s2 !! c) as [cl2|] eqn:Hcl2.
    + specialize (He1 c cl2 Hcl2). destruct He2 as [Hid2 Hst2].
      destruct (heap s1 !! c) as [cl1|].
      * destruct He1 as [Hid1 Hst1]. split; [congruence|by etrans].
      * by etrans.
    + destruct (heap s1 !! c) as [cl1|] eqn:Hcl1; [|done].
      destruct (Hk1 c cl1 Hcl1) as [? ?]. congruence.
Qed.

(** Replacing the channel of an allocated client by a later one of its
    history, whatever happens to the map and to the list of closes. *)
Lemma heap_evolves_update s conn cl ch m l :
  heap s !! conn = Some cl → chan_step (Client.send cl) ch →
  heap_evolves s
    {| clients := m;
       heap := <[conn := {| Client.id := Client.id cl; Client.send := ch |}]> (heap s);
       closes := l |}.
Proof.
  intros Hcl Hstep. split; simpl.
  - intros c cl0 Hc. destruct (decide (c = conn)) as [->|Hne].
    + rewrite lookup_insert_eq. eauto.
    + rewrite lookup_insert_ne by done. eauto.
  - intros c cl' Hc. destruct (decide (c = conn)) as [->|Hne].
    + rewrite lookup_insert_eq in Hc. injection Hc as <-. rewrite Hcl. simpl.
      split; [done|]. by apply rtc_once.
    + rewrite lookup_insert_ne in Hc by done. rewrite Hc. done.
Qed.

Lemma heap_evolves_alloc s conn uuid :
  heap s !! conn = None →
  heap_evolves s
    {| clients := clients s;
       heap := <[conn := {| Client.id := uuid; Client.send := Chan.make 0 |}]> (heap s);
       closes := closes s |}.
Proof.
  intros Hfresh. split; simpl.
  - intros c cl0 Hc. rewrite lookup_insert_ne by congruence. eauto.
  - intros c cl' Hc. destruct (decide (c = conn)) as [->|Hne].
    + rewrite lookup_insert_eq in Hc. injection Hc as <-. rewrite Hfresh. done.
    + rewrite lookup_insert_ne in Hc by done. rewrite Hc. done.
Qed.

Lemma heap_evolves_same_heap s s' : heap s' = heap s → heap_evolves s s'.
Proof.
  intros Hh. split.
  - intros c cl Hc. rewrite Hh. eauto.
  - intros c cl' Hc. rewrite Hh in Hc. rewrite Hc. done.
Qed.

Lemma send_loop_evolves todo s message ignore :
  heap_evolves s (state_of (send_loop s message ignore todo)).
Proof.
  revert s. induction todo as [|conn rest IH]; intros s; cbn [send_loop].
  { apply heap_evolves_refl. }
  case_decide; [apply IH|].
  destruct (heap s !! conn) as [cl|] eqn:Hcl; [|apply heap_evolves_refl].
  destruct (Chan.chansend (Client.send cl) message) as [ch| |] eqn:Hsend;
    try apply heap_evolves_refl.
  eapply heap_evolves_trans; [|apply IH].
  apply heap_evolves_update; [done|]. by eapply chan_step_send.
Qed.

Lemma broadcast_loop_evolves todo s message :
  heap_evolves s (state_of (broadcast_loop s message todo)).
Proof.
  revert s. induction todo as [|conn rest IH]; intros s; cbn [broadcast_loop].
  { apply heap_evolves_refl. }
  destruct (heap s !! conn) as [cl|] eqn:Hcl; [|apply heap_evolves_refl].
  destruct (Chan.chansend (Client.send cl) message) as [ch| |] eqn:Hsend;
    try apply heap_evolves_refl.
  - eapply heap_evolves_trans; [|apply IH].
    apply heap_evolves_update; [done|]. by eapply chan_step_send.
  - destruct (Chan.closechan (Client.send cl)) as [ch|] eqn:Hclose;
      [|apply heap_evolves_refl].
    eapply heap_evolves_trans; [|apply IH].
    apply heap_evolves_update; [done|]. by apply chan_step_close.
Qed.

Lemma writer_recv_evolves s c : heap_evolves s (writer_recv s c).
Proof.
  unfold writer_recv. destruct (heap s !! c) as [cl|] eqn:Hcl; [|apply heap_evolves_refl].
  destruct (Chan.chanrecv (Client.send cl)) as [m ch| |ch] eqn:Hr;
    [|apply heap_evolves_refl|].
  - apply heap_evolves_update; [done|]. by eapply chan_step_recv.
  - apply heap_evolves_update; [done|]. by apply chan_step_park.
Qed.

Lemma start_step_evolves s r : heap_evolves s (state_of (start_step s r)).
Proof.
  destruct r as [c|c|m]; cbn [start_step].
  - eapply heap_evolves_trans; [|apply send_loop_evolves]. by apply heap_evolves_same_heap.
  - destruct (clients s !! c); [|apply heap_evolves_refl].
    destruct (heap s !! c) as [cl|] eqn:Hcl; [|apply heap_evolves_refl].
    destruct (Chan.closechan (Client.send cl)) as [ch|] eqn:Hclose;
      [|apply heap_evolves_refl].
    eapply heap_evolves_trans; [|apply send_loop_evolves].
    apply heap_evolves_update; [done|]. by apply chan_step_close.
  - apply broadcast_loop_evolves.
Qed.

Lemma step_evolves o e o' :
  step o e = Some o' → heap_evolves (state_of o) (state_of o').
Proof.
  intros Hstep.
  destruct o as [s|s conn rest message ignore|s], e as [c uuid|r|c];
    cbn [step state_of] in *; try done.
  - destruct (heap s !! c) eqn:Hfresh; [done|]. injection Hstep as <-.
    unfold wsPage. eapply heap_evolves_trans; [|apply start_step_evolves].
    by apply heap_evolves_alloc.
  - injection Hstep as <-. apply start_step_evolves.
  - injection Hstep as <-. apply writer_recv_evolves.
  - case_decide; injection Hstep as <-.
    + unfold resume_send. destruct (heap s !! conn) as [cl|] eqn:Hcl;
        [|apply heap_evolves_refl].
      eapply heap_evolves_trans; [|apply send_loop_evolves].
      apply heap_evolves_update; [done|]. apply chan_step_handoff.
    + apply writer_recv_evolves.
Qed.

Lemma run_evolves evs o o' :
  run o evs = Some o' → heap_evolves (state_of o) (state_of o').
Proof.
  revert o. induction evs as [|e evs IH]; intros o Hrun.
  { simpl in Hrun. injection Hrun as <-. apply heap_evolves_refl. }
  cbn [run] in Hrun. destruct (step o e) as [o1|] eqn:Hstep; [|done].
  eapply heap_evolves_trans; [by eapply step_evolves|by apply IH].
Qed.

(** ** What the loops leave alone *)

Lemma send_loop_heap_other todo s message ignore c :
  c ∉ todo ∨ c = ignore →
  heap (state_of (send_loop s message ignore todo)) !! c = heap s !! c.
Proof.
  revert s. induction todo as [|conn rest IH]; intros s Hc; cbn [send_loop]; [done|].
  assert (c ∉ rest ∨ c = ignore) as Hc' by set_solver.
  case_decide as Hi; [by apply IH|].
  destruct (heap s !! conn) as [cl|] eqn:Hcl; [|done].
  destruct (Chan.chansend (Client.send cl) message) as [ch| |]; try done.
  rewrite IH by done. simpl. rewrite lookup_insert_ne; [done|]. set_solver.
Qed.

Lemma broadcast_loop_heap_other todo s message c :
  c ∉ todo →
  heap (state_of (broadcast_loop s message todo)) !! c = heap s !! c ∧
  clients (state_of (broadcast_loop s message todo)) !! c = clients s !! c.
Proof.
  revert s. induction todo as [|conn rest IH]; intros s Hc; cbn [broadcast_loop]; [done|].
  apply not_elem_of_cons in Hc as [Hne Hc].
  destruct (heap s !! conn) as [cl|] eqn:Hcl; [|done].
  destruct (Chan.chansend (Client.send cl) message) as [ch| |]; try done.
  - destruct (IH (set_send conn cl ch s) Hc) as [-> ->]. simpl.
    by rewrite lookup_insert_ne.
  - destruct (Chan.closechan (Client.send cl)) as [ch|]; [|done].
    match goal with |- context [broadcast_loop ?s2 _ _] =>
      destruct (IH s2 Hc) as [-> ->] end.
    simpl. rewrite lookup_insert_ne by done. by rewrite lookup_delete_ne.
Qed.

(** The result of a pass, client by client. *)
Lemma broadcast_loop_exact todo s message :
  NoDup todo →
  (∀ c, c ∈ todo → open_at s c) →
  ∃ s', broadcast_loop s message todo = Done s' ∧
    ∀ c,
      heap s' !! c
      = (if decide (c ∈ todo) then after_broadcast message <$> heap s !! c
         else heap s !! c) ∧
      clients s' !! c
      = (if decide (c ∈ todo ∧ chan_full s c = true) then None else clients s !! c).
Proof.
  revert s. induction todo as [|conn rest IH]; intros s Hnd Hopen; cbn [broadcast_loop].
  { exists s. split; [done|]. intros c. rewrite decide_False by set_solver.
    rewrite decide_False by set_solver. done. }
  apply NoDup_cons in Hnd as [Hconn Hnd].
  destruct (Hopen conn) as (cl & Hcl & Hop); [set_solver|]. rewrite Hcl.
  destruct (Chan.chansend (Client.send cl) message) as [ch| |] eqn:Hsend.
  - pose proof Hsend as (_ & Hch & Hfull & _)%chansend_ok.
    destruct (IH (set_send conn cl ch s) Hnd) as (s' & -> & Hs').
    { intros c ?. apply open_at_set_send; [done|]. apply Hopen; set_solver. }
    exists s'. split; [done|]. intros c. destruct (Hs' c) as [-> ->].
    destruct (decide (c = conn)) as [->|Hne].
    + rewrite decide_False by done. rewrite decide_True by set_solver.
      rewrite (decide_False (P := conn ∈ rest ∧ _)) by tauto.
      rewrite decide_False.
      * simpl. rewrite lookup_insert_eq, Hcl. simpl. unfold after_broadcast.
        by rewrite Hsend.
      * unfold chan_full. rewrite Hcl. intros [_ ?]. congruence.
    + simpl. rewrite lookup_insert_ne by done. rewrite chan_full_set_send.
      rewrite (decide_False (P := c = conn)) by done. split.
      * repeat case_decide; try done; set_solver.
      * repeat case_decide; try done; set_solver.
  - pose proof Hsend as Hfull%chansend_full.
    destruct (closechan_open _ Hop) as [ch Hclose]. rewrite Hclose.
    set (s2 := {| clients := delete conn (clients s);
                  heap := <[conn := {| Client.id := Client.id cl; Client.send := ch |}]> (heap s);
                  closes := closes s ++ [conn] |}).
    destruct (IH s2 Hnd) as (s' & -> & Hs').
    { intros c Hc. destruct (Hopen c) as (cl' & Hcl' & Hop'); [set_solver|].
      exists cl'. subst s2; simpl. rewrite lookup_insert_ne by set_solver. done. }
    exists s'. split; [done|]. intros c. destruct (Hs' c) as [-> ->].
    destruct (decide (c = conn)) as [->|Hne].
    + rewrite decide_False by done. rewrite decide_True by set_solver.
      rewrite (decide_False (P := conn ∈ rest ∧ _)) by tauto.
      rewrite decide_True.
      * subst s2; simpl. rewrite lookup_insert_eq, lookup_delete_eq, Hcl. simpl.
        unfold after_broadcast. by rewrite Hsend, Hclose.
      * split; [set_solver|]. unfold chan_full. by rewrite Hcl.
    + assert (chan_full s2 c = chan_full s c) as ->.
      { unfold chan_full, s2; simpl. by rewrite lookup_insert_ne. }
      subst s2; simpl. rewrite lookup_insert_ne by done.
      rewrite lookup_delete_ne by done. split.
      * repeat case_decide; try done; set_solver.
      * repeat case_decide; try done; set_solver.
  - apply chansend_panic in Hsend. congruence.
Qed.

Lemma broadcast_loop_panics todo s message c :
  c ∈ todo → closed_at s c → is_panic (broadcast_loop s message todo) = true.
Proof.
  revert s. induction todo as [|conn rest IH]; intros s Hc Hclosed; [set_solver|].
  cbn [broadcast_loop].
  destruct (heap s !! conn) as [cl|] eqn:Hcl; [|done].
  destruct (decide (c = conn)) as [->|Hne].
  { destruct Hclosed as (cl' & Hcl' & Hcd). assert (cl' = cl) as -> by congruence.
    apply (chansend_panic _ message) in Hcd. by rewrite Hcd. }
  assert (c ∈ rest) as Hrest by set_solver.
  assert (∀ m l ch, closed_at {| clients := m;
      heap := <[conn := {| Client.id := Client.id cl; Client.send := ch |}]> (heap s);
      closes := l |} c) as Hkeep.
  { intros m l ch. destruct Hclosed as (cl' & Hcl' & Hcd). exists cl'. simpl.
    by rewrite lookup_insert_ne. }
  destruct (Chan.chansend (Client.send cl) message) as [ch| |]; try done.
  - apply IH; [done|]. apply Hkeep.
  - destruct (Chan.closechan (Client.send cl)) as [ch|]; [|done].
    apply IH; [done|]. apply Hkeep.
Qed.

Lemma run_app evs1 evs2 o o' :
  run o (evs1 ++ evs2) = Some o' ↔ ∃ o1, run o evs1 = Some o1 ∧ run o1 evs2 = Some o'.
Proof.
  revert o. induction evs1 as [|e evs1 IH]; intros o; simpl.
  - split; [eauto|]. by intros (o1 & [= <-] & ?).
  - destruct (step o e) as [o1|]; [apply IH|]. split; [done|]. by intros (? & ? & _).
Qed.

Lemma recv_not_register evs : Forall is_recv evs → Forall (λ e, ¬ is_register e) evs.
Proof. intros H. eapply Forall_impl; [done|]. intros [| |]; simpl; tauto. Qed.

Lemma reachable_inv evs o :
  Forall (λ e, ¬ is_register e) evs → run (Done manager) evs = Some o → inv o.
Proof. intros Hev Hrun. by eapply run_inv; [apply inv_manager|..]. Qed.

(** ** Broadcast *)

(** X1: with the clients of the map allocated and open, a broadcast runs to
    its end whatever the channels hold, and sorts the clients by their
    channel alone: it keeps exactly those whose channel is not full, each of
    which (the sender of the message included) gets the message once on its
    channel; it closes the channels of the others without sending them
    anything; clients outside the map are untouched. *)
Theorem broadcast_keeps_exactly_the_ready s message :
  clients_open s →
  ∃ s', start_step s (Broadcast message) = Done s' ∧
    (∀ c, c ∈ dom (clients s') ↔ c ∈ dom (clients s) ∧ chan_full s c = false) ∧
    (∀ c, c ∈ dom (clients s) → chan_full s c = false →
       open_at s' c ∧ sent s' c = sent s c ++ [message]) ∧
    (∀ c, c ∈ dom (clients s) → chan_full s c = true →
       closed_at s' c ∧ c ∈ closes s' ∧ sent s' c = sent s c) ∧
    (∀ c, c ∉ dom (clients s) → heap s' !! c = heap s !! c).
Proof.
  intros Hopen. cbn [start_step].
  destruct (broadcast_loop_spec (range_order s) s message) as (s' & Hs' & Hf & Hn & Ho & _).
  { by apply NoDup_range_order. }
  { intros c Hc. apply Hopen. by apply elem_of_range_order in Hc. }
  exists s'. split; [done|]. split_and!.
  - intros c. rewrite !elem_of_dom.
    destruct (decide (c ∈ range_order s)) as [Hin|Hout].
    + pose proof (proj1 (elem_of_range_order s c) Hin) as Hd. apply elem_of_dom in Hd.
      destruct (chan_full s c) eqn:Hfc.
      * destruct (Hf c Hin Hfc) as (-> & _). split; [by intros [? ?]|by intros [_ ?]].
      * destruct (Hn c Hin Hfc) as (-> & _). tauto.
    + destruct (Ho c Hout) as [-> _]. split; [|tauto]. intros Hd. exfalso.
      apply Hout, elem_of_range_order. by apply elem_of_dom.
  - intros c Hc Hfc. destruct (Hn c) as (_ & ? & ?); [by apply elem_of_range_order|done..].
  - intros c Hc Hfc. destruct (Hf c) as (_ & ? & ? & ?); [by apply elem_of_range_order|done..].
  - intros c Hc. apply Ho. by rewrite elem_of_range_order.
Qed.

(** Two passes over the same keys in different orders. *)
Lemma broadcast_loop_order s message todo1 todo2 :
  wf s → todo1 ≡ₚ keys s → todo2 ≡ₚ keys s →
  ∃ s1 s2,
    broadcast_loop s message todo1 = Done s1 ∧
    broadcast_loop s message todo2 = Done s2 ∧
    clients s1 = clients s2 ∧ heap s1 = heap s2 ∧ closes s1 ≡ₚ closes s2.
Proof.
  intros Hwf Hp1 Hp2.
  assert (∀ todo, todo ≡ₚ keys s →
    NoDup todo ∧ (∀ c, c ∈ todo ↔ c ∈ dom (clients s))) as Hperm.
  { intros todo Hp. split; [rewrite Hp; apply NoDup_keys|].
    intros c. by rewrite Hp, elem_of_keys. }
  destruct (Hperm _ Hp1) as [Hnd1 Hin1]. destruct (Hperm _ Hp2) as [Hnd2 Hin2].
  destruct (broadcast_loop_exact todo1 s message Hnd1) as (s1 & Hs1 & He1).
  { intros c Hc. apply (proj1 Hwf). by apply Hin1. }
  destruct (broadcast_loop_exact todo2 s message Hnd2) as (s2 & Hs2 & He2).
  { intros c Hc. apply (proj1 Hwf). by apply Hin2. }
  exists s1, s2. split; [done|]. split; [done|].
  assert (heap s1 = heap s2) as Hheap.
  { apply map_eq. intros c. destruct (He1 c) as [-> _]. destruct (He2 c) as [-> _].
    repeat case_decide; try done; exfalso; rewrite ?Hin1, ?Hin2 in *; tauto. }
  split_and!; [|done|].
  - apply map_eq. intros c. destruct (He1 c) as [_ ->]. destruct (He2 c) as [_ ->].
    repeat case_decide; try done; exfalso; rewrite ?Hin1, ?Hin2 in *; tauto.
  - pose proof (broadcast_loop_inv todo1 s message Hwf Hnd1) as Hi1.
    pose proof (broadcast_loop_inv todo2 s message Hwf Hnd2) as Hi2.
    rewrite Hs1 in Hi1. rewrite Hs2 in Hi2.
    destruct Hi1 as (_ & (_ & Hc1 & Hn1) & _); [intros c; apply Hin1|].
    destruct Hi2 as (_ & (_ & Hc2 & Hn2) & _); [intros c; apply Hin2|].
    simpl in *. apply NoDup_Permutation; [done..|].
    intros c. rewrite Hc1, Hc2. unfold closed_at. by rewrite Hheap.
Qed.

(** ** Unregister *)

(** X3: from a consistent state, the unregister case for a client [c] of the
    map closes the channel of [c], deletes [c] and announces to the clients
    that remain: at every point of the announcement fan-out, followed while
    the write loops receive, there is no panic, [c] is out of the map and its
    channel is closed with nothing more sent on it; when the fan-out is
    through, every remaining client has the disconnect announcement once
    more on its channel.  The fan-out gets through once the write loops it
    waits for receive; the manager parks in it exactly when the channel of
    some remaining client is full. *)
Theorem unregister_closes_deletes_announces s c :
  wf s → c ∈ dom (clients s) →
  (∀ evs o, Forall is_recv evs → run (start_step s (Unregister c)) evs = Some o →
     is_panic o = false ∧
     dom (clients (state_of o)) = dom (clients s) ∖ {[c]} ∧
     closed_at (state_of o) c ∧ closes (state_of o) = closes s ++ [c] ∧
     sent (state_of o) c = sent s c ∧
     (∀ s', o = Done s' →
        ∀ c', c' ∈ dom (clients s) → c' ≠ c →
          sent s' c' = sent s c' ++ [json_Marshal disconnected_message])) ∧
  (∃ evs s', Forall is_recv evs ∧
     run (start_step s (Unregister c)) evs = Some (Done s')) ∧
  (is_blocked (start_step s (Unregister c)) = true ↔
   ∃ c', c' ∈ dom (clients s) ∧ c' ≠ c ∧ chan_full s c' = true).
Proof.
  intros Hwf Hc.
  pose proof (step_inv (Done s) (Req (Unregister c)) _
                (conj eq_refl (conj Hwf I)) (λ H, H) eq_refl) as Hinv.
  destruct (proj1 Hwf c Hc) as (cl & Hcl & Hop).
  destruct (closechan_open _ Hop) as [ch Hclose].
  apply elem_of_dom in Hc as [b Hb].
  cbn [start_step] in *. rewrite Hb, Hcl, Hclose in *.
  apply closechan_some in Hclose as (_ & Hch & Hsent).
  set (s1 := {| clients := delete c (clients s);
                heap := <[c := {| Client.id := Client.id cl; Client.send := ch |}]> (heap s);
                closes := closes s ++ [c] |}) in *.
  assert (∀ c', c' ≠ c → heap s1 !! c' = heap s !! c') as Hother.
  { intros c' Hne. subst s1; simpl. by rewrite lookup_insert_ne. }
  assert (sent s1 c = sent s c) as Hsc.
  { unfold sent, s1; simpl. by rewrite lookup_insert_eq, Hcl. }
  assert (dom (clients s1) = dom (clients s) ∖ {[c]}) as Hdom.
  { subst s1; simpl. by rewrite dom_delete_L. }
  split_and!.
  - intros evs o Hev Hrun.
    pose proof (run_inv evs _ o Hinv (recv_not_register _ Hev) Hrun) as (Hp & Hwf' & _).
    destruct (run_recv_clients _ _ _ Hev Hrun) as [Hcs Hcl'].
    unfold send in Hcs, Hcl'.
    destruct (send_loop_clients s1 (json_Marshal disconnected_message) c (range_order s1))
      as [Hcs1 Hcl1].
    rewrite Hcs1 in Hcs. rewrite Hcl1 in Hcl'.
    destruct (send_fanout s1 _ c evs o Hev Hrun Hp) as (Hself & _ & _ & _ & Hdone).
    split_and!; [done|by rewrite Hcs|..|done| |].
    + apply Hwf'. rewrite Hcl'. subst s1; simpl. set_solver.
    + by rewrite Hself.
    + intros s' -> c' Hc' Hne. rewrite (Hdone s' eq_refl c'); [|set_solver|done].
      unfold sent. by rewrite Hother.
  - unfold send. apply send_loop_completes. intros c' Hc' Hne.
    apply elem_of_range_order in Hc'. rewrite Hdom in Hc'.
    destruct (proj1 Hwf c') as (cl' & Hcl' & Hop'); [set_solver|].
    exists cl'. by rewrite Hother.
  - unfold send.
    destruct (send_loop_blocked_iff (range_order s1) s1
                (json_Marshal disconnected_message) c) as [_ ->].
    + by apply NoDup_range_order.
    + intros c' Hc' Hne. apply elem_of_range_order in Hc'. rewrite Hdom in Hc'.
      destruct (proj1 Hwf c') as (cl' & Hcl' & Hop'); [set_solver|].
      exists cl'. by rewrite Hother.
    + split; intros (c' & Hc' & Hne & Hf); exists c'.
      * apply elem_of_range_order in Hc'. rewrite Hdom in Hc'.
        split_and!; [set_solver|done|]. unfold chan_full in *. by rewrite <-Hother.
      * split_and!; [|done|].
        -- apply elem_of_range_order. rewrite Hdom. set_solver.
        -- unfold chan_full in *. by rewrite Hother.
Qed.

(** X4: a client whose channel is closed must not be registered again: if it
    is, the next unregister request for it panics (close of a closed
    channel), and so does the next broadcast (send on a closed channel). *)
Theorem registering_a_closed_client_panics s c s1 :
  closed_at s c → start_step s (Register c) = Done s1 →
  start_step s1 (Unregister c) = Panic s1 ∧
  ∀ message, is_panic (start_step s1 (Broadcast message)) = true.
Proof.
  intros (cl & Hcl & Hcd) Hreg. cbn [start_step] in Hreg. unfold send in Hreg.
  match type of Hreg with send_loop ?s0 ?m ?i ?t = _ =>
    pose proof (send_loop_clients s0 m i t) as [Hcs _];
    pose proof (send_loop_heap_other t s0 m i c (or_intror eq_refl)) as Hh end.
  rewrite Hreg in Hcs, Hh. simpl in Hcs, Hh.
  assert (c ∈ dom (clients s1)) as Hin.
  { rewrite Hcs, dom_insert. set_solver. }
  assert (closed_at s1 c) as Hclosed.
  { exists cl. by rewrite Hh. }
  split.
  - cbn [start_step]. apply elem_of_dom in Hin as [b ->]. rewrite Hh, Hcl.
    unfold Chan.closechan. by rewrite Hcd.
  - intros message. cbn [start_step]. apply (broadcast_loop_panics _ _ _ c); [|done].
    by apply elem_of_range_order.
Qed.

(** ** States of the program *)

Lemma unbuffered_from_manager s : heap_evolves manager s → unbuffered s.
Proof.
  intros [_ He] c cl Hcl. specialize (He c cl Hcl). simpl in He.
  rewrite lookup_empty in He.
  destruct (chan_steps_facts _ _ He) as (Hcap & _ & _ & _ & Hbuf).
  split; [by rewrite Hcap|]. by apply Hbuf.
Qed.

Lemma unbuffered_full s c :
  unbuffered s → open_at s c → chan_full s c = negb (writer_parked s c).
Proof.
  intros Hu (cl & Hcl & Hop). destruct (Hu c cl Hcl) as [Hcap Hbuf].
  unfold chan_full, writer_parked, Chan.full. rewrite Hcl, Hop, Hcap, Hbuf. simpl.
  by destruct (Chan.recvq _).
Qed.

(** X5: in every execution of the program in which clients are admitted
    through [wsPage], every client of the map is allocated with an open
    channel, the clients with a closed channel are those the manager closed,
    and every channel is unbuffered and empty: whatever a channel has
    accepted has been taken by the write loop, and the channel of a client of
    the map is full exactly when its write loop is not parked on its
    receive. *)
Theorem program_states evs o :
  Forall (λ e, ¬ is_register e) evs → run (Done manager) evs = Some o →
  clients_open (state_of o) ∧
  (∀ c, closed_at (state_of o) c ↔ c ∈ closes (state_of o)) ∧
  unbuffered (state_of o) ∧
  (∀ c cl, heap (state_of o) !! c = Some cl →
     sent (state_of o) c = Chan.taken (Client.send cl)) ∧
  (∀ c, c ∈ dom (clients (state_of o)) →
     chan_full (state_of o) c = negb (writer_parked (state_of o) c)).
Proof.
  intros Hev Hrun.
  destruct (reachable_inv evs o Hev Hrun) as (_ & (Hopen & Hcloses & _) & _).
  pose proof (unbuffered_from_manager _ (run_evolves _ _ _ Hrun)) as Hu.
  split_and!; [done| |done| |].
  - intros c. by rewrite Hcloses.
  - intros c cl Hcl. unfold sent, Chan.sent. rewrite Hcl.
    destruct (Hu c cl Hcl) as [_ ->]. by rewrite app_nil_r.
  - intros c Hc. apply unbuffered_full; [done|]. by apply Hopen.
Qed.

(** X6: in the program, whose channels are unbuffered, a broadcast reaches
    exactly the clients whose write loop is parked on its receive at that
    moment: those stay in the map and get the message; every other client
    of the map has its channel closed and is deleted without getting
    anything. *)
Theorem broadcast_reaches_the_parked evs s message :
  Forall (λ e, ¬ is_register e) evs → run (Done manager) evs = Some (Done s) →
  ∃ s', start_step s (Broadcast message) = Done s' ∧
    (∀ c, c ∈ dom (clients s') ↔ c ∈ dom (clients s) ∧ writer_parked s c = true) ∧
    (∀ c, c ∈ dom (clients s) → writer_parked s c = true →
       sent s' c = sent s c ++ [message]) ∧
    (∀ c, c ∈ dom (clients s) → writer_parked s c = false →
       closed_at s' c ∧ sent s' c = sent s c).
Proof.
  intros Hev Hrun.
  destruct (reachable_inv evs _ Hev Hrun) as (_ & (Hopen & _ & _) & _).
  pose proof (unbuffered_from_manager _ (run_evolves _ _ _ Hrun)) as Hu.
  simpl in Hopen, Hu.
  assert (∀ c, c ∈ dom (clients s) → chan_full s c = negb (writer_parked s c)) as Hfull.
  { intros c Hc. apply unbuffered_full; [done|]. by apply Hopen. }
  cbn [start_step].
  destruct (broadcast_loop_spec (range_order s) s message) as (s' & Hs' & Hf & Hn & Ho & _).
  { by apply NoDup_range_order. }
  { intros c Hc. apply Hopen. by apply elem_of_range_order in Hc. }
  exists s'. split; [done|]. split_and!.
  - intros c. rewrite !elem_of_dom.
    destruct (decide (c ∈ range_order s)) as [Hin|Hout].
    + pose proof (proj1 (elem_of_range_order s c) Hin) as Hd.
      pose proof (Hfull c Hd) as Hfc. apply elem_of_dom in Hd.
      destruct (writer_parked s c); simpl in Hfc.
      * destruct (Hn c Hin Hfc) as (-> & _). tauto.
      * destruct (Hf c Hin Hfc) as (-> & _). split; [by intros [? ?]|by intros [_ ?]].
    + destruct (Ho c Hout) as [-> _]. split; [|tauto]. intros Hd. exfalso.
      apply Hout, elem_of_range_order. by apply elem_of_dom.
  - intros c Hc Hpk. destruct (Hn c) as (_ & _ & ?); [by apply elem_of_range_order| |done].
    rewrite Hfull by done. by rewrite Hpk.
  - intros c Hc Hpk. destruct (Hf c) as (_ & ? & _ & ?); [by apply elem_of_range_order| |done].
    rewrite Hfull by done. by rewrite Hpk.
Qed.

(** ** Admission *)

(** X7: a client just admitted by [wsPage] has an unbuffered channel and a
    write loop that has not started: if a broadcast is served before that
    write loop reaches its receive, the new client is dropped at once, its
    channel closed with nothing sent on it; if the write loop gets to its
    receive first, the client stays and gets the message. *)
Theorem new_client_races_with_broadcast s conn uuid s1 message :
  wf s → heap s !! conn = None → wsPage s conn uuid = Done s1 →
  (∃ s2, start_step s1 (Broadcast message) = Done s2 ∧
         (conn ∉ dom (clients s2)) ∧ closed_at s2 conn ∧ sent s2 conn = []) ∧
  (∃ s2, start_step (writer_recv s1 conn) (Broadcast message) = Done s2 ∧
         conn ∈ dom (clients s2) ∧ open_at s2 conn ∧ sent s2 conn = [message]).
Proof.
  intros Hwf Hfresh Hws.
  assert (inv (Done s1)) as (_ & Hwf1 & _).
  { rewrite <-Hws.
    apply (step_inv (Done s) (Accept conn uuid)); [by split_and!|exact (λ H, H)|].
    cbn [step]. by rewrite Hfresh. }
  simpl in Hwf1.
  assert (heap s1 !! conn
          = Some {| Client.id := uuid; Client.send := Chan.make 0 |}) as Hnew.
  { unfold wsPage in Hws. cbn [start_step] in Hws. unfold send in Hws.
    match type of Hws with send_loop ?s0 ?m ?i ?t = _ =>
      pose proof (send_loop_heap_other t s0 m i conn (or_intror eq_refl)) as Hh end.
    rewrite Hws in Hh. simpl in Hh. by rewrite lookup_insert_eq in Hh. }
  assert (conn ∈ dom (clients s1)) as Hin.
  { unfold wsPage in Hws. cbn [start_step] in Hws. unfold send in Hws.
    match type of Hws with send_loop ?s0 ?m ?i ?t = _ =>
      pose proof (send_loop_clients s0 m i t) as [Hcs _] end.
    rewrite Hws in Hcs. simpl in Hcs. rewrite Hcs, dom_insert. set_solver. }
  split.
  - cbn [start_step].
    destruct (broadcast_loop_spec (range_order s1) s1 message) as (s2 & Hs2 & Hf & _).
    { by apply NoDup_range_order. }
    { intros c Hc. apply (proj1 Hwf1). by apply elem_of_range_order in Hc. }
    exists s2. split; [done|].
    destruct (Hf conn) as (Hnone & Hcl & _ & Hsent); [by apply elem_of_range_order| |].
    { unfold chan_full. by rewrite Hnew. }
    split_and!; [by apply not_elem_of_dom|done|].
    rewrite Hsent. unfold sent. by rewrite Hnew.
  - pose proof (wf_writer_recv s1 conn Hwf1) as Hwfr.
    destruct (writer_recv_clients s1 conn) as [Hcr _].
    assert (heap (writer_recv s1 conn) !! conn
            = Some {| Client.id := uuid;
                      Client.send := {| Chan.cap := 0; Chan.waiting := Chan.Receiver;
                                        Chan.closed := false; Chan.taken := [] |} |}) as Hpk.
    { unfold writer_recv. rewrite Hnew. simpl. by rewrite lookup_insert_eq. }
    cbn [start_step].
    destruct (broadcast_loop_spec (range_order (writer_recv s1 conn)) (writer_recv s1 conn)
                message) as (s2 & Hs2 & _ & Hn & _).
    { by apply NoDup_range_order. }
    { intros c Hc. apply (proj1 Hwfr). by apply elem_of_range_order in Hc. }
    exists s2. split; [done|].
    destruct (Hn conn) as (Hsame & Hop & Hsent).
    { apply elem_of_range_order. by rewrite Hcr. }
    { unfold chan_full. by rewrite Hpk. }
    split_and!; [|done|].
    + apply elem_of_dom. rewrite Hsame, Hcr. by apply elem_of_dom.
    + rewrite Hsent. unfold sent. by rewrite Hpk.
Qed.

(** ** Over an execution *)

Lemma step_closed_quiet o e o' c :
  inv o → ¬ is_register e → step o e = Some o' →
  closed_at (state_of o) c → sent (state_of o') c = sent (state_of o) c.
Proof.
  intros (_ & Hwf & Hpend) He Hstep Hclosed.
  assert (c ∉ dom (clients (state_of o))) as Hout.
  { intros Hin. eapply open_not_closed; [by apply (proj1 Hwf)|done]. }
  assert (is_Some (heap (state_of o) !! c)) as Halloc.
  { destruct Hclosed as (cl & -> & _). eauto. }
  destruct o as [s|s conn rest message ignore|s], e as [c0 uuid|r|c0];
    cbn [step state_of] in *; try done.
  - destruct (heap s !! c0) eqn:Hfresh; [done|]. injection Hstep as <-.
    assert (c ≠ c0) as Hne by (intros ->; rewrite Hfresh in Halloc; by destruct Halloc).
    unfold wsPage, sent. cbn [start_step]. unfold send.
    rewrite send_loop_heap_other.
    + simpl. by rewrite lookup_insert_ne.
    + left. rewrite elem_of_range_order. simpl. rewrite dom_insert. set_solver.
  - injection Hstep as <-. destruct r as [c0|c0|m]; [by destruct He| |]; cbn [start_step].
    + destruct (clients s !! c0) eqn:Hin; [|done].
      assert (c ≠ c0) as Hne.
      { intros ->. apply Hout. by apply elem_of_dom. }
      destruct (heap s !! c0) as [cl|]; [|done].
      destruct (Chan.closechan (Client.send cl)) as [ch|]; [|done].
      unfold sent, send. rewrite send_loop_heap_other.
      * simpl. by rewrite lookup_insert_ne.
      * left. rewrite elem_of_range_order. simpl. rewrite dom_delete. set_solver.
    + unfold sent.
      destruct (broadcast_loop_heap_other (range_order s) s m c) as [-> _]; [|done].
      by rewrite elem_of_range_order.
  - injection Hstep as <-. apply writer_recv_sent.
  - case_decide as Hc0; injection Hstep as <-; [|apply writer_recv_sent].
    unfold resume_send. destruct (heap s !! conn) as [cl|]; [|done].
    assert (c ≠ conn) as Hne.
    { intros ->. apply Hout. exact (proj1 Hpend). }
    unfold sent. rewrite send_loop_heap_other.
    + simpl. by rewrite lookup_insert_ne.
    + destruct (decide (c = ignore)) as [->|Hi]; [by right|]. left.
      intros Hin. apply Hout. by apply (proj2 Hpend).
Qed.

Lemma run_closed_quiet evs o o' c :
  inv o → Forall (λ e, ¬ is_register e) evs → run o evs = Some o' →
  closed_at (state_of o) c →
  closed_at (state_of o') c ∧ sent (state_of o') c = sent (state_of o) c.
Proof.
  revert o. induction evs as [|e evs IH]; intros o Hinv Hev Hrun Hclosed.
  { simpl in Hrun. by injection Hrun as <-. }
  apply Forall_cons in Hev as [He Hev]. cbn [run] in Hrun.
  destruct (step o e) as [o1|] eqn:Hstep; [|done].
  pose proof (step_inv _ _ _ Hinv He Hstep) as Hinv1.
  assert (closed_at (state_of o1) c) as Hclosed1.
  { destruct Hclosed as (cl & Hcl & Hcd).
    destruct (step_evolves _ _ _ Hstep) as [Hkeep Hev'].
    destruct (Hkeep c cl Hcl) as [cl1 Hcl1]. specialize (Hev' c cl1 Hcl1).
    rewrite Hcl in Hev'. destruct Hev' as [_ Hsteps].
    exists cl1. split; [done|]. by apply (chan_steps_facts _ _ Hsteps). }
  destruct (IH o1 Hinv1 Hev Hrun Hclosed1) as [? ->]. split; [done|].
  by eapply step_closed_quiet.
Qed.

(** X8: in an execution of the program in which clients are admitted through
    [wsPage], once the manager has closed the channel of a client, that
    client stays out of the map, its channel stays closed, and nothing is
    ever sent on it again. *)
Theorem removed_client_gets_nothing_more evs1 evs2 o1 o2 c :
  Forall (λ e, ¬ is_register e) (evs1 ++ evs2) →
  run (Done manager) evs1 = Some o1 → run o1 evs2 = Some o2 →
  c ∈ closes (state_of o1) →
  c ∈ closes (state_of o2) ∧ (c ∉ dom (clients (state_of o2))) ∧
  sent (state_of o2) c = sent (state_of o1) c.
Proof.
  intros [Hev1 Hev2]%Forall_app Hrun1 Hrun2 Hc.
  pose proof (reachable_inv _ _ Hev1 Hrun1) as Hinv1.
  pose proof (run_inv _ _ _ Hinv1 Hev2 Hrun2) as (_ & (Hopen2 & Hcloses2 & _) & _).
  destruct (run_closed_quiet evs2 o1 o2 c Hinv1 Hev2 Hrun2) as [Hclosed2 Hsent].
  { by apply (proj1 (proj2 (proj1 (proj2 Hinv1)))). }
  split_and!; [by apply Hcloses2| |done].
  intros Hin. eapply open_not_closed; [by apply Hopen2|done].
Qed.

(** X9: over any execution a client, once allocated, stays allocated with the
    same id and a channel of the same capacity; what its channel has
    accepted only grows at the end, and so does what its write loop has
    taken; a closed channel stays closed. *)
Theorem clients_persist evs o o' c cl :
  run o evs = Some o' → heap (state_of o) !! c = Some cl →
  ∃ cl', heap (state_of o') !! c = Some cl' ∧
    Client.id cl' = Client.id cl ∧
    Chan.cap (Client.send cl') = Chan.cap (Client.send cl) ∧
    sent (state_of o) c `prefix_of` sent (state_of o') c ∧
    Chan.taken (Client.send cl) `prefix_of` Chan.taken (Client.send cl') ∧
    (Chan.closed (Client.send cl) = true → Chan.closed (Client.send cl') = true).
Proof.
  intros Hrun Hcl. destruct (run_evolves _ _ _ Hrun) as [Hkeep Hev].
  destruct (Hkeep c cl Hcl) as [cl' Hcl']. specialize (Hev c cl' Hcl').
  rewrite Hcl in Hev. destruct Hev as [Hid Hsteps].
  destruct (chan_steps_facts _ _ Hsteps) as (Hcap & Hcd & Hs & Ht & _).
  exists cl'. unfold sent. rewrite Hcl, Hcl'. by split_and!.
Qed.

(** X13: admitting a client through [wsPage] and then serving an unregister
    request for it, the write loops receiving in between and after, puts the
    client map back as it was: the client is out of the map again, its
    channel is closed and nothing was ever sent on it, and every other
    client of the map has received the connection announcement and then the
    disconnection announcement, and nothing else. *)
Theorem admit_then_remove_restores_the_map s conn uuid evs1 evs2 s' :
  wf s → Forall is_recv evs1 → Forall is_recv evs2 →
  run (Done s) (Accept conn uuid :: evs1 ++ Req (Unregister conn) :: evs2)
  = Some (Done s') →
  clients s' = clients s ∧ closed_at s' conn ∧ sent s' conn = [] ∧
  ∀ c, c ∈ dom (clients s) →
    sent s' c = sent s c ++ [json_Marshal connected_message;
                             json_Marshal disconnected_message].
Proof.
  intros Hwf Hev1 Hev2 Hrun. cbn [run] in Hrun.
  destruct (step (Done s) (Accept conn uuid)) as [o0|] eqn:Hstep0; [|done].
  pose proof (step_inv (Done s) (Accept conn uuid) _
                (conj eq_refl (conj Hwf I)) (λ H, H) Hstep0) as Hinv0.
  cbn [step] in Hstep0. destruct (heap s !! conn) eqn:Hfresh; [done|].
  injection Hstep0 as <-.
  assert (clients s !! conn = None) as Hnotin.
  { apply not_elem_of_dom. intros Hin. destruct (proj1 Hwf conn Hin) as (? & ? & _).
    congruence. }
  apply run_app in Hrun as (o1 & Hrun1 & Hrun2).
  cbn [run] in Hrun2. destruct (step o1 _) as [o2|] eqn:Hstep2; [|done].
  destruct o1 as [s1| |]; [|done..].
  pose proof (run_inv _ _ _ Hinv0 (recv_not_register _ Hev1) Hrun1) as Hinv1.
  pose proof (step_inv (Done s1) (Req (Unregister conn)) _ Hinv1 (λ H, H) Hstep2) as Hinv2.
  pose proof (run_inv _ _ _ Hinv2 (recv_not_register _ Hev2) Hrun2) as (_ & Hwf' & _).
  pose (s0 := {| clients := <[conn := true]> (clients s);
                 heap := <[conn := {| Client.id := uuid; Client.send := Chan.make 0 |}]> (heap s);
                 closes := closes s |}).
  change (run (send s0 (json_Marshal connected_message) conn) evs1 = Some (Done s1))
    in Hrun1.
  destruct (send_fanout s0 _ conn evs1 (Done s1) Hev1 Hrun1 eq_refl)
    as (Hself1 & _ & _ & _ & Hdone1).
  destruct (run_recv_clients _ _ _ Hev1 Hrun1) as [Hcs1 Hcl1]. unfold send in Hcs1, Hcl1.
  destruct (send_loop_clients s0 (json_Marshal connected_message) conn (range_order s0))
    as [Hcs0 Hcl0].
  rewrite Hcs0 in Hcs1. rewrite Hcl0 in Hcl1. cbn [state_of] in Hcs1, Hcl1, Hself1.
  assert (sent s0 conn = []) as Hs0.
  { unfold sent, s0; simpl. by rewrite lookup_insert_eq. }
  assert (conn ∈ dom (clients s1)) as Hin1.
  { rewrite Hcs1. subst s0; simpl. rewrite dom_insert. set_solver. }
  destruct (proj1 (proj1 (proj2 Hinv1)) conn Hin1) as (cl & Hcl & Hop).
  cbn [state_of] in Hcl.
  destruct (closechan_open _ Hop) as [ch Hclose].
  pose (s2 := {| clients := delete conn (clients s1);
                 heap := <[conn := {| Client.id := Client.id cl; Client.send := ch |}]> (heap s1);
                 closes := closes s1 ++ [conn] |}).
  assert (o2 = send s2 (json_Marshal disconnected_message) conn) as ->.
  { cbn [step start_step] in Hstep2. apply elem_of_dom in Hin1 as [b Hb].
    rewrite Hb, Hcl, Hclose in Hstep2. by injection Hstep2 as <-. }
  apply closechan_some in Hclose as (_ & _ & Hsent).
  destruct (send_fanout s2 _ conn evs2 (Done s') Hev2 Hrun2 eq_refl)
    as (Hself2 & _ & _ & _ & Hdone2).
  destruct (run_recv_clients _ _ _ Hev2 Hrun2) as [Hcs2 Hcl2]. unfold send in Hcs2, Hcl2.
  destruct (send_loop_clients s2 (json_Marshal disconnected_message) conn (range_order s2))
    as [Hcs2' Hcl2'].
  rewrite Hcs2' in Hcs2. rewrite Hcl2' in Hcl2. cbn [state_of] in Hcs2, Hcl2, Hself2.
  assert (clients s2 = clients s) as Hback.
  { subst s2 s0; simpl. rewrite Hcs1. simpl. rewrite delete_insert_eq. by apply delete_id. }
  split_and!.
  - by rewrite Hcs2.
  - apply Hwf'. cbn [state_of]. rewrite Hcl2. subst s2; simpl. set_solver.
  - rewrite Hself2. unfold sent at 1. subst s2; simpl. rewrite lookup_insert_eq. simpl.
    rewrite Hsent. unfold sent in Hself1 at 1. rewrite Hcl in Hself1.
    by rewrite Hself1.
  - intros c Hc. assert (c ≠ conn) as Hne.
    { intros ->. apply elem_of_dom in Hc. rewrite Hnotin in Hc. by destruct Hc. }
    rewrite (Hdone2 s' eq_refl c); [|by rewrite Hback|done].
    assert (sent s2 c = sent s1 c) as ->.
    { unfold sent, s2; simpl. by rewrite lookup_insert_ne. }
    rewrite (Hdone1 s1 eq_refl c); [|subst s0; simpl; rewrite dom_insert; set_solver|done].
    assert (sent s0 c = sent s c) as ->.
    { unfold sent, s0; simpl. by rewrite lookup_insert_ne. }
    by rewrite <-app_assoc.
Qed.

(** ** The announcement fan-out drops nobody *)

Lemma closed_flag_set_send s conn cl ch c :
  heap s !! conn = Some cl → Chan.closed ch = Chan.closed (Client.send cl) →
  closed_flag (set_send conn cl ch s) c = closed_flag s c.
Proof.
  intros Hcl Hch. unfold closed_flag, set_send; simpl.
  destruct (decide (c = conn)) as [->|Hne].
  - rewrite lookup_insert_eq, Hcl. simpl. by rewrite Hch.
  - by rewrite lookup_insert_ne.
Qed.

Lemma send_loop_closed_flag todo s message ignore c :
  closed_flag (state_of (send_loop s message ignore todo)) c = closed_flag s c.
Proof.
  revert s. induction todo as [|conn rest IH]; intros s; cbn [send_loop]; [done|].
  case_decide; [apply IH|].
  destruct (heap s !! conn) as [cl|] eqn:Hcl; [|done].
  destruct (Chan.chansend (Client.send cl) message) as [ch| |] eqn:Hsend; try done.
  rewrite IH. apply closed_flag_set_send; [done|].
  apply chansend_ok in Hsend as (-> & -> & _). done.
Qed.

Lemma writer_recv_closed_flag s c0 c :
  closed_flag (writer_recv s c0) c = closed_flag s c.
Proof.
  unfold writer_recv. destruct (heap s !! c0) as [cl|] eqn:Hcl; [|done].
  destruct (Chan.chanrecv (Client.send cl)) as [m ch| |ch] eqn:Hr; [|done|].
  - apply closed_flag_set_send; [done|]. by apply chanrecv_val in Hr as [-> _].
  - apply closed_flag_set_send; [done|]. by apply chanrecv_park in Hr as [-> _].
Qed.

Lemma run_recv_closed_flag evs o o' c :
  Forall is_recv evs → run o evs = Some o' →
  closed_flag (state_of o') c = closed_flag (state_of o) c.
Proof.
  revert o. induction evs as [|e evs IH]; intros o Hev Hrun.
  { simpl in Hrun. by injection Hrun as <-. }
  apply Forall_cons in Hev as [He Hev]. destruct e as [| |c0]; try done.
  cbn [run] in Hrun. destruct o as [s|s conn rest message ignore|s]; cbn [step] in Hrun.
  - rewrite (IH (Done (writer_recv s c0)) Hev Hrun). apply writer_recv_closed_flag.
  - case_decide as Hc0.
    + rewrite (IH (resume_send s conn rest message ignore) Hev Hrun). cbn [state_of].
      unfold resume_send. destruct (heap s !! conn) as [cl|] eqn:Hcl; [|done].
      rewrite send_loop_closed_flag. apply closed_flag_set_send; [done|].
      by destruct (recv_from_sender_spec (Client.send cl) message) as [-> _].
    + rewrite (IH (Blocked (writer_recv s c0) conn rest message ignore) Hev Hrun).
      apply writer_recv_closed_flag.
  - done.
Qed.

(** X14: unlike a broadcast, the fan-out of [send] drops nobody, however long
    it has to wait: at every point of it, followed while the write loops
    receive, the client map is the one it started with, no channel has been
    closed, and every channel is open or closed as it was. *)
Theorem send_drops_nobody s message ignore evs o :
  Forall is_recv evs → run (send s message ignore) evs = Some o →
  clients (state_of o) = clients s ∧ closes (state_of o) = closes s ∧
  ∀ c, closed_flag (state_of o) c = closed_flag s c.
Proof.
  intros Hev Hrun. destruct (run_recv_clients _ _ _ Hev Hrun) as [Hcs Hcl].
  unfold send in *.
  destruct (send_loop_clients s message ignore (range_order s)) as [Hcs0 Hcl0].
  split_and!; [congruence..|]. intros c.
  rewrite (run_recv_closed_flag _ _ _ c Hev Hrun). apply send_loop_closed_flag.
Qed.

(** ** The read and write loops *)

(** X10: the read loop turns every message it reads into exactly one
    broadcast request carrying the envelope with its client's id as sender,
    in reading order, and does not return while its reads succeed; at the
    first read error it issues an unregister request and closes the socket,
    does both once more from its deferred call, and returns without reading
    further. *)
Theorem read_loop_trace c cid msgs :
  read c cid (ReadOk <$> msgs)
  = ((λ m, ToManager (Broadcast (json_Marshal (user_message cid m)))) <$> msgs, false) ∧
  ∀ rest,
    read c cid ((ReadOk <$> msgs) ++ ReadErr :: rest)
    = (((λ m, ToManager (Broadcast (json_Marshal (user_message cid m)))) <$> msgs)
       ++ [ToManager (Unregister c); SocketClose; ToManager (Unregister c); SocketClose],
       true).
Proof.
  split; [|intros rest]; induction msgs as [|m msgs IH]; try done;
    cbn [fmap list_fmap app read] in *; by rewrite IH.
Qed.

(** X11: the write loop writes every message it receives as one text frame,
    in receiving order, whether or not earlier writes failed, and does not
    return while its channel yields messages; when the receive reports the
    channel closed it writes one close frame, closes the socket and returns
    without receiving further. *)
Theorem write_loop_trace (items : list (string * bool)) :
  write ((λ i, Value i.1 i.2) <$> items)
  = ((λ i, WriteMessage TextMessage i.1) <$> items, false) ∧
  ∀ werr rest,
    write (((λ i, Value i.1 i.2) <$> items) ++ NotOk werr :: rest)
    = (((λ i, WriteMessage TextMessage i.1) <$> items)
       ++ [WriteMessage CloseMessage EmptyString; SocketClose], true).
Proof.
  split; [|intros werr rest]; induction items as [|i items IH]; try done;
    cbn [fmap list_fmap app write] in *; by rewrite IH.
Qed.

Lemma string_app_assoc (a b c : string) : (a +:+ b) +:+ c = a +:+ b +:+ c.
Proof.
  induction a as [|x a IH]; [done|].
  change (String x ((a +:+ b) +:+ c) = String x (a +:+ b +:+ c)). by f_equal.
Qed.

(** X12: the envelope of a user message is marshalled with the sender and
    the content, in that order, and never with a recipient; a message with an
    empty payload is marshalled with the sender alone. *)
Theorem user_message_marshalled cid message :
  cid ≠ EmptyString →
  json_Marshal (user_message cid message)
  = if decide (message = EmptyString)
    then "{" +:+ dq +:+ "sender" +:+ dq +:+ ":" +:+ json_string cid +:+ "}"
    else "{" +:+ dq +:+ "sender" +:+ dq +:+ ":" +:+ json_string cid +:+ ","
             +:+ dq +:+ "content" +:+ dq +:+ ":" +:+ json_string message +:+ "}".
Proof.
  intros Hcid. unfold json_Marshal, json_field, user_message. cbn [Sender Recipient Content].
  rewrite (decide_False (P := cid = EmptyString)) by done.
  rewrite (decide_True (P := EmptyString = EmptyString)) by done.
  case_decide; simpl.
  - by rewrite !string_app_assoc.
  - by rewrite !string_app_assoc.
Qed.

(** ** A client that keeps up *)

Lemma unbuffered_evolves s s' : unbuffered s → heap_evolves s s' → unbuffered s'.
Proof.
  intros Hu [_ He] c cl' Hcl'. specialize (He c cl' Hcl').
  destruct (heap s !! c) as [cl|] eqn:Hcl.
  - destruct He as [_ Hsteps]. destruct (Hu c cl Hcl) as [Hcap Hbuf].
    destruct (chan_steps_facts _ _ Hsteps) as (Hcap' & _ & _ & _ & Hbuf').
    split; [congruence|by apply Hbuf'].
  - destruct (chan_steps_facts _ _ He) as (Hcap' & _ & _ & _ & Hbuf').
    split; [by rewrite Hcap'|by apply Hbuf'].
Qed.

Lemma keeps_up_once s c m :
  wf s → unbuffered s → c ∈ dom (clients s) →
  ∃ s', run (Done s) [Recv c; Req (Broadcast m)] = Some (Done s') ∧
        wf s' ∧ unbuffered s' ∧ c ∈ dom (clients s') ∧ sent s' c = sent s c ++ [m].
Proof.
  intros Hwf Hu Hc. cbn [run step start_step].
  pose proof (wf_writer_recv s c Hwf) as Hwfr.
  destruct (writer_recv_clients s c) as [Hcr _].
  destruct (proj1 Hwf c Hc) as (cl & Hcl & Hop). destruct (Hu c cl Hcl) as [Hcap Hbuf].
  assert (chan_full (writer_recv s c) c = false) as Hnf.
  { unfold chan_full, writer_recv, Chan.chanrecv. rewrite Hcl, Hbuf, Hop. simpl.
    rewrite lookup_insert_eq. reflexivity. }
  pose proof (broadcast_loop_inv (range_order (writer_recv s c)) (writer_recv s c) m Hwfr
                (NoDup_range_order _)) as Hinv.
  destruct (broadcast_loop_spec (range_order (writer_recv s c)) (writer_recv s c) m)
    as (s' & Hs' & _ & Hn & _).
  { by apply NoDup_range_order. }
  { intros c' Hc'. apply (proj1 Hwfr). by apply elem_of_range_order in Hc'. }
  rewrite Hs' in Hinv. destruct Hinv as (_ & Hwf' & _).
  { intros c' Hc'. by apply elem_of_range_order in Hc'. }
  exists s'. rewrite Hs'. split; [done|]. split; [done|].
  destruct (Hn c) as (Hsame & _ & Hsent); [|done|].
  { apply elem_of_range_order. by rewrite Hcr. }
  split_and!.
  - apply (unbuffered_evolves s); [done|].
    eapply heap_evolves_trans; [apply (writer_recv_evolves s c)|].
    pose proof (broadcast_loop_evolves (range_order (writer_recv s c)) (writer_recv s c) m)
      as He.
    by rewrite Hs' in He.
  - apply elem_of_dom. rewrite Hsame, Hcr. by apply elem_of_dom.
  - by rewrite Hsent, writer_recv_sent.
Qed.

(** The schedule in which the write loop of [c] receives right before each
    broadcast and nothing else happens. *)
Lemma keeps_up_schedule s c msgs :
  wf s → unbuffered s → c ∈ dom (clients s) →
  ∃ s', run (Done s) (keeps_up c msgs) = Some (Done s') ∧
        c ∈ dom (clients s') ∧ sent s' c = sent s c ++ msgs.
Proof.
  revert s. induction msgs as [|m msgs IH]; intros s Hwf Hu Hc.
  { exists s. split; [done|]. split; [done|]. by rewrite app_nil_r. }
  destruct (keeps_up_once s c m Hwf Hu Hc) as (s1 & Hrun1 & Hwf1 & Hu1 & Hc1 & Hsent1).
  destruct (IH s1 Hwf1 Hu1 Hc1) as (s' & Hrun & Hc' & Hsent).
  exists s'. split_and!; [|done|].
  - change (keeps_up c (m :: msgs)) with ([Recv c; Req (Broadcast m)] ++ keeps_up c msgs).
    apply run_app. eauto.
  - rewrite Hsent, Hsent1. by rewrite <-app_assoc.
Qed.

Lemma step_parked_at_broadcast o e o' c :
  inv o → unbuffered (state_of o) → c ∈ dom (clients (state_of o)) →
  ¬ is_register e → e ≠ Req (Unregister c) →
  (is_broadcast e → writer_parked (state_of o) c = true) →
  step o e = Some o' →
  c ∈ dom (clients (state_of o')) ∧
  ∃ new, sent (state_of o') c = sent (state_of o) c ++ new ∧
         broadcast_of e `sublist_of` new.
Proof.
  intros Hinv Hu Hc He Hne Hpk Hstep.
  pose proof (step_inv _ _ _ Hinv He Hstep) as (Hp' & _ & _).
  destruct Hinv as (_ & Hwf & _).
  destruct (proj1 Hwf c Hc) as (cl & Hcl & Hop).
  assert (is_broadcast e ∨ ¬ is_broadcast e) as [Hb|Hnb].
  { destruct e as [|[| |m]|]; simpl; tauto. }
  - destruct e as [|[| |m]|]; try done. destruct o as [s| |]; [|done..].
    cbn [step state_of start_step broadcast_of] in *. injection Hstep as <-.
    destruct (broadcast_loop_spec (range_order s) s m) as (s' & -> & _ & Hn & _).
    { by apply NoDup_range_order. }
    { intros c' Hc'. apply (proj1 Hwf). by apply elem_of_range_order in Hc'. }
    destruct (Hn c) as (Hsame & _ & Hsent); [by apply elem_of_range_order| |].
    { rewrite (unbuffered_full s c Hu); [|by exists cl]. by rewrite (Hpk I). }
    cbn [state_of]. split.
    + apply elem_of_dom. rewrite Hsame. by apply elem_of_dom.
    + by exists [m].
  - split.
    + destruct (step_dom_sub _ _ _ Hstep Hp') as [_ Heq]. rewrite Heq; [|by intros ?].
      destruct e as [c0 uuid|[c0|c0|m]|c0]; cbn [membership_step];
        [set_solver|by destruct He| |by destruct Hnb|done].
      assert (c ≠ c0) by congruence. set_solver.
    + destruct (step_evolves _ _ _ Hstep) as [Hkeep Hev].
      destruct (Hkeep c cl Hcl) as [cl' Hcl']. specialize (Hev c cl' Hcl').
      rewrite Hcl in Hev. destruct Hev as [_ Hsteps].
      destruct (chan_steps_facts _ _ Hsteps) as (_ & _ & [new Hnew] & _).
      exists new. unfold sent. rewrite Hcl, Hcl'. split; [done|].
      destruct e as [|[| |m]|]; cbn [broadcast_of]; try apply sublist_nil_l.
      by destruct Hnb.
Qed.

Lemma run_parked_at_broadcasts evs o o' c :
  inv o → unbuffered (state_of o) → c ∈ dom (clients (state_of o)) →
  Forall (λ e, ¬ is_register e ∧ e ≠ Req (Unregister c)) evs →
  parked_at_broadcasts c o evs →
  run o evs = Some o' →
  c ∈ dom (clients (state_of o')) ∧
  ∃ new, sent (state_of o') c = sent (state_of o) c ++ new ∧
         broadcasts evs `sublist_of` new.
Proof.
  revert o. induction evs as [|e evs IH]; intros o Hinv Hu Hc Hev Hpk Hrun.
  { simpl in Hrun. injection Hrun as <-. split; [done|]. exists []. by rewrite app_nil_r. }
  apply Forall_cons in Hev as [[He Hne] Hev]. cbn [run parked_at_broadcasts] in *.
  destruct (step o e) as [o1|] eqn:Hstep; [|done]. destruct Hpk as [Hpk1 Hpk].
  destruct (step_parked_at_broadcast _ _ _ c Hinv Hu Hc He Hne Hpk1 Hstep)
    as (Hc1 & new1 & Hs1 & Hsub1).
  destruct (IH o1) as (Hc' & new & Hs & Hsub); try done.
  { by eapply step_inv. }
  { eapply unbuffered_evolves; [done|]. by eapply step_evolves. }
  split; [done|]. exists (new1 ++ new). split.
  - by rewrite Hs, Hs1, app_assoc.
  - change (broadcasts (e :: evs)) with (broadcast_of e ++ broadcasts evs).
    by apply sublist_app.
Qed.

(** X15: from a consistent state with unbuffered channels, over any execution
    (admissions through [wsPage], requests, receives of any write loop) in
    which client [c] of the map is not unregistered and its write loop is
    parked on its receive whenever a broadcast is served, [c] stays in the
    map and misses no broadcast: what its channel has accepted grows by a
    sequence that holds the messages of all the broadcasts, in the order they
    were broadcast (announcements may come in between). *)
Theorem client_parked_at_broadcasts_misses_none s c evs o' :
  wf s → unbuffered s → c ∈ dom (clients s) →
  Forall (λ e, ¬ is_register e ∧ e ≠ Req (Unregister c)) evs →
  parked_at_broadcasts c (Done s) evs →
  run (Done s) evs = Some o' →
  c ∈ dom (clients (state_of o')) ∧
  ∃ new, sent (state_of o') c = sent s c ++ new ∧ broadcasts evs `sublist_of` new.
Proof.
  intros Hwf Hu Hc Hev Hpk Hrun.
  assert (inv (Done s)) as Hinv by (by split_and!).
  exact (run_parked_at_broadcasts evs (Done s) o' c Hinv Hu Hc Hev Hpk Hrun).
Qed.

End Hub.

(** * The properties on concrete executions *)

Lemma in_dom_lookup (m : gmap positive bool) c b : m !! c = Some b → c ∈ dom m.
Proof. intros H. apply elem_of_dom. eauto. Qed.

Lemma not_in_dom_lookup (m : gmap positive bool) c : m !! c = None → c ∉ dom m.
Proof. apply not_elem_of_dom. Qed.

Example st_one_reached :
  run quote_string key_order (Done manager) [Accept 1%positive "A"] = Some (Done st_one).
Proof. vm_compute. reflexivity. Qed.

Example st_one_gone_reached :
  run quote_string key_order (Done manager)
      [Accept 1%positive "A"; Req (Unregister 1%positive)] = Some (Done st_one_gone).
Proof. vm_compute. reflexivity. Qed.

(** The end-to-end scenario: A connects, B connects, A sends "hi", B's read
    fails.  The write loops are at their receive before each step. *)
Example end_to_end :
  ∃ s',
    run quote_string key_order (Done manager)
      ([Accept 1%positive "A"; Recv 1%positive; Accept 2%positive "B";
        Recv 1%positive; Recv 2%positive]
       ++ (Req <$> requests_of (read quote_string 1%positive "A" [ReadOk "hi"]).1)
       ++ [Recv 1%positive; Recv 2%positive]
       ++ (Req <$> requests_of (read quote_string 2%positive "B" [ReadErr]).1))
    = Some (Done s') ∧
    keys s' = [1%positive] ∧
    sent s' 1%positive
    = [json_Marshal quote_string connected_message;
       json_Marshal quote_string
         {| Sender := "A"; Recipient := EmptyString; Content := "hi" |};
       json_Marshal quote_string disconnected_message] ∧
    sent s' 2%positive
    = [json_Marshal quote_string
         {| Sender := "A"; Recipient := EmptyString; Content := "hi" |}].
Proof.
  eexists. split; [vm_compute; reflexivity|]. split_and!; vm_compute; reflexivity.
Qed.

(** C1, the claim as stated fails: admitting a second client while the write
    loop of the first is not at its receive leaves the manager parked on the
    first client's channel. *)
Lemma admission_announcement_waits :
  is_blocked (wsPage quote_string key_order st_one 2%positive "B") = true ∧
  ∃ o, run quote_string key_order (Done manager)
           [Accept 1%positive "A"; Accept 2%positive "B"] = Some o ∧
       is_blocked o = true.
Proof.
  split; [vm_compute; reflexivity|]. eexists. split; vm_compute; reflexivity.
Qed.

Lemma broadcast_never_waits_send_waits_on_full_witness :
  clients_open st_one ∧ is_blocked (send key_order st_one "x" 2%positive) = true.
Proof.
  assert (clients_open st_one) as Hopen by (apply clients_openb_sound; reflexivity).
  split; [exact Hopen|].
  apply (proj1 (proj2 (broadcast_never_waits_send_waits_on_full
                         quote_string key_order key_order_perm))
           st_one "x" 2%positive (λ c Hc _, Hopen c Hc)).
  exists 1%positive. split; [|split; [done|reflexivity]].
  by apply (in_dom_lookup _ _ true).
Defined.


Lemma broadcast_removes_full_peer_witness :
  ∃ s', start_step quote_string key_order st_stress (Broadcast "hi") = Done s' ∧
        (1%positive ∉ dom (clients s')) ∧ closed_at s' 1%positive ∧ 1%positive ∈ closes s'.
Proof.
  apply (broadcast_removes_full_peer quote_string key_order key_order_perm).
  - apply clients_openb_sound. reflexivity.
  - by apply (in_dom_lookup _ _ true).
  - reflexivity.
Defined.

Lemma unregister_twice_is_once_witness :
  start_step quote_string key_order st_one_gone (Unregister 1%positive) = Done st_one_gone.
Proof.
  apply (proj1 (proj2 (unregister_twice_is_once quote_string key_order key_order_perm))
           st_one 1%positive [] st_one_gone).
  - constructor.
  - vm_compute. reflexivity.
Defined.

(** C5, the claim as stated fails: after the broadcast that removes the
    saturated client 1, the channels of the remaining clients 2 and 3 have
    carried the broadcast message and nothing else, and the later unregister
    request for client 1 changes nothing: no disconnect announcement
    reaches them. *)
Lemma eviction_is_not_announced :
  ∃ s', start_step quote_string key_order st_stress (Broadcast "hi") = Done s' ∧
        keys s' = [3%positive; 2%positive] ∧
        sent s' 2%positive = ["hi"] ∧ sent s' 3%positive = ["hi"] ∧
        (json_Marshal quote_string disconnected_message ∉ sent s' 2%positive) ∧
        (json_Marshal quote_string disconnected_message ∉ sent s' 3%positive) ∧
        start_step quote_string key_order s' (Unregister 1%positive) = Done s'.
Proof.
  eexists. split; [vm_compute; reflexivity|].
  split_and!; try (vm_compute; reflexivity).
  - intros H. apply list_elem_of_In in H. vm_compute in H. by destruct H as [H|[]].
  - intros H. apply list_elem_of_In in H. vm_compute in H. by destruct H as [H|[]].
Qed.

Lemma broadcast_with_one_full_peer_witness :
  ∃ s', start_step quote_string key_order st_stress (Broadcast "hi") = Done s' ∧
        dom (clients s') = dom (clients st_stress) ∖ {[1%positive]} ∧
        (∀ c, c ∈ dom (clients st_stress) → c ≠ 1%positive →
           sent s' c = sent st_stress c ++ ["hi"]) ∧
        sent s' 1%positive = sent st_stress 1%positive ∧
        start_step quote_string key_order s' (Unregister 1%positive) = Done s'.
Proof.
  apply (broadcast_with_one_full_peer quote_string key_order key_order_perm).
  - apply clients_openb_sound. reflexivity.
  - by apply (in_dom_lookup _ _ true).
  - reflexivity.
  - intros c Hc Hne. apply elem_of_dom in Hc as [b Hb].
    destruct (decide (c = 2%positive)) as [->|H2]; [reflexivity|].
    destruct (decide (c = 3%positive)) as [->|H3]; [reflexivity|].
    exfalso. revert Hb. unfold st_stress; simpl.
    rewrite !lookup_insert_ne by done. by rewrite lookup_empty.
Defined.

Lemma send_delivers_once_to_all_but_ignored_witness :
  (∃ o, run quote_string key_order (send key_order st_stress "hi" 2%positive) [Recv 1%positive]
        = Some o ∧
        sent (state_of o) 2%positive = sent st_stress 2%positive ∧
        sent (state_of o) 1%positive ++ owed o 1%positive = sent st_stress 1%positive ++ ["hi"]) ∧
  (∃ evs s', Forall is_recv evs ∧
     run quote_string key_order (send key_order st_stress "hi" 2%positive) evs = Some (Done s')).
Proof.
  pose proof (send_delivers_once_to_all_but_ignored quote_string key_order key_order_perm
                st_stress "hi" 2%positive) as [Hfan Hdone].
  split.
  - eexists. split; [vm_compute; reflexivity|].
    edestruct (Hfan [Recv 1%positive]) as (Hself & _ & _ & Hothers & _).
    + by repeat constructor.
    + vm_compute. reflexivity.
    + reflexivity.
    + split; [exact Hself|]. apply Hothers; [|done]. by apply (in_dom_lookup _ _ true).
  - apply Hdone. apply clients_openb_sound. reflexivity.
Defined.

Lemma register_adds_then_announces_witness :
  ∃ s', run quote_string key_order
            (start_step quote_string key_order st_newcomer (Register 2%positive)) []
        = Some (Done s') ∧
        2%positive ∈ dom (clients s') ∧
        sent s' 2%positive = sent st_newcomer 2%positive ∧
        sent s' 1%positive
        = sent st_newcomer 1%positive ++ [json_Marshal quote_string connected_message].
Proof.
  pose proof (register_adds_then_announces quote_string key_order key_order_perm
                st_newcomer 2%positive) as (_ & Hfan & _).
  eexists. split; [vm_compute; reflexivity|].
  edestruct (Hfan []) as (Hin & Hrest).
  - constructor.
  - vm_compute. reflexivity.
  - destruct (Hrest eq_refl) as (Hself & _ & Hdone).
    split; [exact Hin|]. split; [exact Hself|].
    apply (Hdone _ eq_refl); [|done]. by apply (in_dom_lookup _ _ true).
Defined.

Lemma write_loop_never_unregisters_witness :
  clients (writer_recv st_one 1%positive) = clients st_one ∧
  1%positive ∈ closes st_one_gone.
Proof.
  pose proof (write_loop_never_unregisters quote_string key_order key_order_perm)
    as (_ & _ & Hrecv & Hclosed).
  split.
  - apply (Hrecv (Done st_one) 1%positive (Done (writer_recv st_one 1%positive))).
    reflexivity.
  - apply (Hclosed [Accept 1%positive "A"; Req (Unregister 1%positive)] (Done st_one_gone)
             1%positive
             {| Client.id := "A";
                Client.send := {| Chan.cap := 0; Chan.waiting := Chan.Items [];
                                  Chan.closed := true; Chan.taken := [] |} |}).
    + repeat constructor; simpl; tauto.
    + vm_compute. reflexivity.
    + reflexivity.
    + reflexivity.
Defined.

(** C9, the claim as stated fails: neither announcement has the content the
    scenario quotes; each starts with a slash, and so does what a client
    receives when another one is admitted. *)
Lemma announcement_content_has_slash :
  Content connected_message ≠ "A new socket has connected." ∧
  Content disconnected_message ≠ "A socket has disconnected." ∧
  ∃ s', start_step quote_string key_order st_newcomer (Register 2%positive) = Done s' ∧
        sent s' 1%positive
        ≠ [json_Marshal quote_string
             {| Sender := EmptyString; Recipient := EmptyString;
                Content := "A new socket has connected." |}].
Proof.
  split; [done|]. split; [done|].
  eexists. split; [vm_compute; reflexivity|]. vm_compute. congruence.
Qed.

Lemma announcement_envelopes_witness :
  start_step quote_string key_order st_one (Unregister 1%positive)
  = send key_order st_one_gone (json_Marshal quote_string disconnected_message) 1%positive.
Proof.
  pose proof (announcement_envelopes quote_string key_order) as (_ & _ & _ & _ & _ & Hun).
  rewrite (Hun st_one 1%positive true
             {| Client.id := "A"; Client.send := Chan.make 0 |}
             {| Chan.cap := 0; Chan.waiting := Chan.Items [];
                Chan.closed := true; Chan.taken := [] |});
    reflexivity.
Defined.

Lemma send_channel_closed_at_most_once_witness :
  is_panic (Done st_one_gone) = false ∧ NoDup (closes st_one_gone) ∧
  (∀ c, c ∈ closes st_one_gone → c ∉ dom (clients st_one_gone)).
Proof.
  apply (send_channel_closed_at_most_once quote_string key_order key_order_perm
           [Accept 1%positive "A"; Req (Unregister 1%positive); Req (Unregister 1%positive)]
           (Done st_one_gone)).
  - repeat constructor; simpl; tauto.
  - vm_compute. reflexivity.
Defined.


(** * Further properties on concrete executions *)

(** X2: the order in which the broadcast case ranges over the map does not
    matter: from a consistent state, under any two orders the pass ends in
    the same client map and the same heap, with the same channels closed. *)
Theorem broadcast_order_irrelevant (json_string : string → string)
    (order1 order2 : state → list positive) s message :
  (∀ s, order1 s ≡ₚ keys s) → (∀ s, order2 s ≡ₚ keys s) → wf s →
  ∃ s1 s2,
    start_step json_string order1 s (Broadcast message) = Done s1 ∧
    start_step json_string order2 s (Broadcast message) = Done s2 ∧
    clients s1 = clients s2 ∧ heap s1 = heap s2 ∧ closes s1 ≡ₚ closes s2.
Proof.
  intros Hp1 Hp2 Hwf. cbn [start_step].
  exact (broadcast_loop_order json_string order1 Hp1 s message (order1 s) (order2 s)
           Hwf (Hp1 s) (Hp2 s)).
Qed.

Example st_parked_reached :
  run quote_string key_order (Done manager) [Accept 1%positive "A"; Recv 1%positive]
  = Some (Done st_parked).
Proof. vm_compute. reflexivity. Qed.

Example st_pair_reached :
  run quote_string key_order (Done manager)
      [Accept 1%positive "A"; Recv 1%positive; Accept 2%positive "B"; Recv 2%positive]
  = Some (Done st_pair).
Proof. vm_compute. reflexivity. Qed.

Lemma st_pair_admissions :
  Forall (λ e, ¬ is_register e)
    [Accept 1%positive "A"; Recv 1%positive; Accept 2%positive "B"; Recv 2%positive].
Proof. repeat constructor; simpl; tauto. Qed.

Lemma wf_st_pair : wf st_pair.
Proof.
  apply (reachable_inv quote_string key_order key_order_perm _ (Done st_pair)
           st_pair_admissions st_pair_reached).
Qed.

Lemma wf_st_parked : wf st_parked.
Proof.
  apply (reachable_inv quote_string key_order key_order_perm
           [Accept 1%positive "A"; Recv 1%positive] (Done st_parked)).
  - repeat constructor; simpl; tauto.
  - exact st_parked_reached.
Qed.

Lemma wf_manager : wf manager.
Proof. exact (proj1 (proj2 (inv_manager key_order key_order_perm))). Qed.

Lemma broadcast_keeps_exactly_the_ready_witness :
  ∃ s', start_step quote_string key_order st_stress (Broadcast "hi") = Done s' ∧
    (∀ c, c ∈ dom (clients s') ↔ c ∈ dom (clients st_stress) ∧ chan_full st_stress c = false) ∧
    (∀ c, c ∈ dom (clients st_stress) → chan_full st_stress c = false →
       open_at s' c ∧ sent s' c = sent st_stress c ++ ["hi"]) ∧
    (∀ c, c ∈ dom (clients st_stress) → chan_full st_stress c = true →
       closed_at s' c ∧ c ∈ closes s' ∧ sent s' c = sent st_stress c) ∧
    (∀ c, c ∉ dom (clients st_stress) → heap s' !! c = heap st_stress !! c).
Proof.
  apply (broadcast_keeps_exactly_the_ready quote_string key_order key_order_perm).
  apply clients_openb_sound. reflexivity.
Defined.

Lemma broadcast_order_irrelevant_witness :
  ∃ s1 s2,
    start_step quote_string key_order st_pair (Broadcast "hi") = Done s1 ∧
    start_step quote_string (λ s, reverse (keys s)) st_pair (Broadcast "hi") = Done s2 ∧
    clients s1 = clients s2 ∧ heap s1 = heap s2 ∧ closes s1 ≡ₚ closes s2.
Proof.
  apply (broadcast_order_irrelevant quote_string key_order (λ s, reverse (keys s))).
  - exact key_order_perm.
  - intros s. apply reverse_Permutation.
  - exact wf_st_pair.
Defined.

Lemma unregister_closes_deletes_announces_witness :
  is_blocked (start_step quote_string key_order st_pair (Unregister 2%positive)) = true.
Proof.
  assert (2%positive ∈ dom (clients st_pair)) as Hin by (by apply (in_dom_lookup _ _ true)).
  apply (proj2 (proj2 (unregister_closes_deletes_announces quote_string key_order
                         key_order_perm st_pair 2%positive wf_st_pair Hin))).
  exists 1%positive. split; [by apply (in_dom_lookup _ _ true)|]. split; [done|reflexivity].
Defined.

Lemma registering_a_closed_client_panics_witness :
  start_step quote_string key_order st_one_back (Unregister 1%positive) = Panic st_one_back ∧
  ∀ message, is_panic (start_step quote_string key_order st_one_back (Broadcast message)) = true.
Proof.
  apply (registering_a_closed_client_panics quote_string key_order key_order_perm
           st_one_gone 1%positive st_one_back).
  - eexists. split; reflexivity.
  - vm_compute. reflexivity.
Defined.

Lemma program_states_witness :
  clients_open st_pair ∧
  (∀ c, closed_at st_pair c ↔ c ∈ closes st_pair) ∧
  unbuffered st_pair ∧
  (∀ c cl, heap st_pair !! c = Some cl → sent st_pair c = Chan.taken (Client.send cl)) ∧
  (∀ c, c ∈ dom (clients st_pair) →
     chan_full st_pair c = negb (writer_parked st_pair c)).
Proof.
  apply (program_states quote_string key_order key_order_perm _ (Done st_pair)
           st_pair_admissions st_pair_reached).
Defined.

Lemma broadcast_reaches_the_parked_witness :
  ∃ s', start_step quote_string key_order st_pair (Broadcast "hi") = Done s' ∧
    (∀ c, c ∈ dom (clients s') ↔ c ∈ dom (clients st_pair) ∧ writer_parked st_pair c = true) ∧
    (∀ c, c ∈ dom (clients st_pair) → writer_parked st_pair c = true →
       sent s' c = sent st_pair c ++ ["hi"]) ∧
    (∀ c, c ∈ dom (clients st_pair) → writer_parked st_pair c = false →
       closed_at s' c ∧ sent s' c = sent st_pair c).
Proof.
  apply (broadcast_reaches_the_parked quote_string key_order key_order_perm _ st_pair "hi"
           st_pair_admissions st_pair_reached).
Defined.

Lemma new_client_races_with_broadcast_witness :
  (∃ s2, start_step quote_string key_order st_one (Broadcast "hi") = Done s2 ∧
         (1%positive ∉ dom (clients s2)) ∧ closed_at s2 1%positive ∧
         sent s2 1%positive = []) ∧
  (∃ s2, start_step quote_string key_order (writer_recv st_one 1%positive) (Broadcast "hi")
         = Done s2 ∧
         1%positive ∈ dom (clients s2) ∧ open_at s2 1%positive ∧
         sent s2 1%positive = ["hi"]).
Proof.
  apply (new_client_races_with_broadcast quote_string key_order key_order_perm
           manager 1%positive "A" st_one "hi" wf_manager).
  - reflexivity.
  - vm_compute. reflexivity.
Defined.

Lemma removed_client_gets_nothing_more_witness :
  ∃ o1 o2,
    run quote_string key_order (Done manager)
        [Accept 1%positive "A"; Recv 1%positive; Accept 2%positive "B"; Recv 2%positive;
         Req (Unregister 1%positive)] = Some o1 ∧
    run quote_string key_order o1 [Recv 2%positive; Req (Broadcast "x")] = Some o2 ∧
    (1%positive ∈ closes (state_of o2) ∧ (1%positive ∉ dom (clients (state_of o2))) ∧
     sent (state_of o2) 1%positive = sent (state_of o1) 1%positive) ∧
    sent (state_of o2) 2%positive = sent (state_of o1) 2%positive ++ ["x"].
Proof.
  eexists. eexists. split; [vm_compute; reflexivity|]. split; [vm_compute; reflexivity|].
  split; [|vm_compute; reflexivity].
  eapply (removed_client_gets_nothing_more quote_string key_order key_order_perm
            [Accept 1%positive "A"; Recv 1%positive; Accept 2%positive "B"; Recv 2%positive;
             Req (Unregister 1%positive)]
            [Recv 2%positive; Req (Broadcast "x")] _ _ 1%positive).
  - repeat constructor; simpl; tauto.
  - vm_compute. reflexivity.
  - vm_compute. reflexivity.
  - simpl. set_solver.
Defined.

Lemma clients_persist_witness :
  ∃ cl', heap st_pair !! 1%positive = Some cl' ∧
    Client.id cl' = "A" ∧
    Chan.cap (Client.send cl') = 0 ∧
    sent st_parked 1%positive `prefix_of` sent st_pair 1%positive ∧
    Chan.taken parked `prefix_of` Chan.taken (Client.send cl') ∧
    (Chan.closed parked = true → Chan.closed (Client.send cl') = true).
Proof.
  apply (clients_persist quote_string key_order [Accept 2%positive "B"; Recv 2%positive]
           (Done st_parked) (Done st_pair) 1%positive
           {| Client.id := "A"; Client.send := parked |}).
  - vm_compute. reflexivity.
  - reflexivity.
Defined.

Lemma user_message_marshalled_witness :
  json_Marshal quote_string (user_message "A" "hi")
  = "{" +:+ dq +:+ "sender" +:+ dq +:+ ":" +:+ quote_string "A" +:+ ","
        +:+ dq +:+ "content" +:+ dq +:+ ":" +:+ quote_string "hi" +:+ "}".
Proof.
  rewrite (user_message_marshalled quote_string "A" "hi"); [reflexivity|done].
Defined.

Lemma admit_then_remove_restores_the_map_witness :
  ∃ s',
    run quote_string key_order (Done st_parked)
        (Accept 2%positive "B" :: [Recv 1%positive] ++ Req (Unregister 2%positive) :: [])
    = Some (Done s') ∧
    clients s' = clients st_parked ∧ closed_at s' 2%positive ∧ sent s' 2%positive = [] ∧
    ∀ c, c ∈ dom (clients st_parked) →
      sent s' c = sent st_parked c ++ [json_Marshal quote_string connected_message;
                                       json_Marshal quote_string disconnected_message].
Proof.
  eexists. split; [vm_compute; reflexivity|].
  apply (admit_then_remove_restores_the_map quote_string key_order key_order_perm
           st_parked 2%positive "B" [Recv 1%positive] [] _ wf_st_parked).
  - by repeat constructor.
  - constructor.
  - vm_compute. reflexivity.
Defined.

Lemma send_drops_nobody_witness :
  clients (state_of (send key_order st_one "x" 2%positive)) = clients st_one ∧
  closes (state_of (send key_order st_one "x" 2%positive)) = closes st_one ∧
  ∀ c, closed_flag (state_of (send key_order st_one "x" 2%positive)) c
       = closed_flag st_one c.
Proof.
  apply (send_drops_nobody quote_string key_order st_one "x" 2%positive []).
  - constructor.
  - reflexivity.
Defined.

Lemma unbuffered_st_parked : unbuffered st_parked.
Proof.
  apply (unbuffered_from_manager st_parked).
  exact (run_evolves quote_string key_order _ (Done manager) (Done st_parked)
           st_parked_reached).
Qed.

Lemma client_parked_at_broadcasts_misses_none_witness :
  ∃ o', run quote_string key_order (Done st_parked)
            [Req (Broadcast "a"); Accept 2%positive "B"; Recv 1%positive; Recv 1%positive;
             Req (Broadcast "b")] = Some o' ∧
        sent (state_of o') 1%positive = ["a"; connected_bytes; "b"] ∧
        1%positive ∈ dom (clients (state_of o')) ∧
        ∃ new, sent (state_of o') 1%positive = sent st_parked 1%positive ++ new ∧
               ["a"; "b"] `sublist_of` new.
Proof.
  eexists. split; [vm_compute; reflexivity|]. split; [vm_compute; reflexivity|].
  eapply (client_parked_at_broadcasts_misses_none quote_string key_order key_order_perm
            st_parked 1%positive
            [Req (Broadcast "a"); Accept 2%positive "B"; Recv 1%positive; Recv 1%positive;
             Req (Broadcast "b")] _ wf_st_parked unbuffered_st_parked).
  - by apply (in_dom_lookup _ _ true).
  - repeat constructor; simpl; try tauto; congruence.
  - cbn [parked_at_broadcasts]. split; [intros _; vm_compute; reflexivity|].
    simpl. repeat split; try (intros []); try (intros _; vm_compute; reflexivity).
  - vm_compute. reflexivity.
Defined.
